(** * A SQLite-backed FIFO queue with a self-restarting dispatch loop

    Shallow embedding of [queue.go] and of the configuration file of the
    package (type [Config], [getNextLocalFile], [configDefault]).

    - Go's [int] and [time.Duration] are 64-bit signed integers: they are
      carried as [Z], and the one place where the program does arithmetic on
      them ([counter++]) has its wrap-around written out.
    - A stored [[]byte] is a [list byte]; a [[]byte] argument is a
      [payload], which tells the nil slice apart; a Go slice of Items is a
      [list Item], the nil slice being [[]].
    - The table [queue] of the SQLite database is the list of its rows in
      rowid order, which is the order in which a scan without ORDER BY walks
      the table b-tree, together with the AUTOINCREMENT high-water mark kept
      in [sqlite_sequence].
    - Methods on [*Queue] pass the queue state explicitly.
    - The consumer callback is a small program over the calls it can make
      (the delay setter, every method of the queue, a panic); the dispatch
      loop is a fuel-bounded function producing the trace of what it did.
    - [Add], [Get] and [Delete] are given on the model database, a storage
      that reports no failure of its own; [Add_with] and [Get_with] leave
      the behaviour of the driver open. *)

From Stdlib Require Import ZArith List String Bool Lia Sorted DecimalString.
From Stdlib Require DecimalZ DecimalPos.
From Stdlib.Strings Require Import Byte.
Import ListNotations.
Open Scope Z_scope.

(** ** Machine integers *)

Definition max_int64 : Z := 9223372036854775807.
Definition min_int64 : Z := -9223372036854775808.

(** Two's complement wrap-around of a 64-bit signed integer. *)
Definition wrap64 (z : Z) : Z := (z - min_int64) mod (2 ^ 64) + min_int64.

(** ** Errors *)

Inductive error : Type :=
| ErrDBClosed                (* "sql: database is closed" *)
| ErrCanceled                (* context.Canceled *)
| ErrFull                    (* SQLITE_FULL: AUTOINCREMENT ran out of rowids *)
| ErrNotNull                 (* "NOT NULL constraint failed: queue.data" *)
| ErrOS (msg : string)       (* an *os.PathError other than "does not exist" *)
| ErrDriver (msg : string).  (* any other failure reported by the driver *)

(** ** Items and the table *)

Record Item : Type := mkItem {
  ID : Z;
  Data : list byte
}.

(** A [[]byte] passed as argument: [None] is the nil slice, which the driver
    binds as NULL. *)
Definition payload : Type := option (list byte).

(** The persisted content of one storage target: the rows of table [queue]
    in rowid order and the largest rowid ever handed out (sqlite_sequence). *)
Record Store : Type := mkStore {
  rows : list Item;
  seq : Z
}.

Definition empty_store : Store := mkStore [] 0.

(** The [*sql.DB] handle. *)
Record DB : Type := mkDB {
  store : Store;
  closed : bool
}.

Definition ids (l : list Item) : list Z := map ID l.

Fixpoint max_rowid (l : list Item) : Z :=
  match l with
  | [] => 0
  | it :: l' => Z.max (ID it) (max_rowid l')
  end.

(** [id INTEGER PRIMARY KEY AUTOINCREMENT]: the next rowid is one more than
    the largest rowid that ever existed in the table. *)
Definition next_rowid (s : Store) : Z := Z.max (seq s) (max_rowid (rows s)) + 1.

(** [INSERT INTO queue(`data`) VALUES (?)] with a non-NULL value. *)
Definition sql_insert (data : list byte) (s : Store) : error + Store :=
  let id := next_rowid s in
  if max_int64 <? id then inl ErrFull
  else inr (mkStore (rows s ++ [mkItem id data]) id).

(** [LIMIT ?]: a negative bound means no bound. *)
Definition sql_limit (limit : Z) (l : list Item) : list Item :=
  if limit <? 0 then l else firstn (Z.to_nat limit) l.

(** [SELECT `id`, `data` FROM queue LIMIT ?] *)
Definition sql_select (limit : Z) (s : Store) : list Item :=
  sql_limit limit (rows s).

(** [DELETE FROM queue WHERE id = ?] *)
Definition sql_delete (id : Z) (s : Store) : Store :=
  mkStore (filter (fun it => negb (ID it =? id)) (rows s)) (seq s).

(** ** The cursor of a query

    What [rows.Next()] followed by [rows.Scan(&item.ID, &item.Data)] yields
    for each row of the result set. *)

Inductive ScanResult : Type :=
| ScanOk (it : Item)
| ScanErr (e : error).

Definition Rows : Type := list ScanResult.

(** [c.db.Query(..., limit)] on the model database. *)
Definition db_query (d : DB) (limit : Z) : error + Rows :=
  if closed d then inl ErrDBClosed
  else inr (map ScanOk (sql_select limit (store d))).

(** ** Callbacks

    A callback receives the Item and the delay setter; what it does with them
    and with the queue it closes over is a program over these calls: the
    delay setter and every method of the queue, [Listener] and [Close]
    included. *)

Inductive Prog : Type :=
| Return
| Panic (msg : string)
| CallDelay (sec : Z) (k : Prog)
| CallAdd (data : payload) (k : option error -> Prog)
| CallGet (limit : Z) (k : list Item * option error -> Prog)
| CallDelete (id : Z) (k : option error -> Prog)
| CallListener (f : Item -> Prog) (k : Prog)
| CallClose (k : option error -> Prog).

Definition Callback : Type := Item -> Prog.

(** ** The queue *)

Record Queue : Type := mkQueue {
  db : DB;
  cancelled : bool;     (* ctx has been cancelled by cancelFunc *)
  clb : Callback
}.

Definition with_store (q : Queue) (s : Store) : Queue :=
  mkQueue (mkDB s (closed (db q))) (cancelled q) (clb q).

(** [func (c *Queue) Add(data []byte) error] on the model database; column
    [data] is declared [BLOB NOT NULL]. [Add_with] below is the same method
    over a driver that may report any other error. *)
Definition Add (data : payload) (q : Queue) : option error * Queue :=
  if closed (db q) then (Some ErrDBClosed, q)
  else if cancelled q then (Some ErrCanceled, q)
  else match data with
       | None => (Some ErrNotNull, q)
       | Some bs =>
           match sql_insert bs (store (db q)) with
           | inl e => (Some e, q)
           | inr s => (None, with_store q s)
           end
       end.

(** [c.db.ExecContext(c.ctx, "INSERT ...", data)] on the model database,
    that is, on a storage that reports no failure of its own: the handle
    state, whether [c.ctx] is cancelled and the payload decide. *)
Definition db_exec_insert (d : DB) (ctx_done : bool) (data : payload)
  : error + Store :=
  if closed d then inl ErrDBClosed
  else if ctx_done then inl ErrCanceled
  else match data with
       | None => inl ErrNotNull
       | Some bs => sql_insert bs (store d)
       end.

Section Driver.

(** The behaviour of [c.db.Query] for the SELECT of [Get]. *)
Variable query : DB -> Z -> error + Rows.

(** The behaviour of [c.db.ExecContext] for the INSERT of [Add]: whatever
    error it reports (a read-only or locked database, a blob that is too big,
    an input-output error, ...) or the table after the insert. *)
Variable exec_insert : DB -> bool -> payload -> error + Store.

(** [func (c *Queue) Add(data []byte) error] over any driver. *)
Definition Add_with (data : payload) (q : Queue) : option error * Queue :=
  match exec_insert (db q) (cancelled q) data with
  | inl e => (Some e, q)
  | inr s => (None, with_store q s)
  end.

(** The loop [for rows.Next() { ... }] of [Get], with [items] as
    accumulator. *)
Fixpoint scan_rows (rs : Rows) (items : list Item) : list Item * option error :=
  match rs with
  | [] => (items, None)
  | ScanOk it :: rs' => scan_rows rs' (items ++ [it])
  | ScanErr e :: _ => ([], Some e)
  end.

(** [func (c *Queue) Get(limit int) ([]Item, error)] over any driver. *)
Definition Get_with (limit : Z) (q : Queue) : (list Item * option error) * Queue :=
  match query (db q) limit with
  | inl e => (([], Some e), q)
  | inr rs => (scan_rows rs [], q)
  end.

End Driver.

(** [Get] on the model database. *)
Definition Get (limit : Z) (q : Queue) : (list Item * option error) * Queue :=
  Get_with db_query limit q.

(** [func (c *Queue) Delete(id int) error] *)
Definition Delete (id : Z) (q : Queue) : option error * Queue :=
  if closed (db q) then (Some ErrDBClosed, q)
  else (None, with_store q (sql_delete id (store (db q)))).

(** [func (c *Queue) Listener(clb ...)] *)
Definition Listener (f : Callback) (q : Queue) : Queue :=
  mkQueue (db q) (cancelled q) f.

(** [func (c *Queue) Close() error] *)
Definition Close (q : Queue) : option error * Queue :=
  let q' := mkQueue (mkDB (store (db q)) true) true (clb q) in
  (None, q').

(** ** Running a callback

    [delay] is the local variable of the loop body that the closure [broken]
    assigns to. *)

Inductive Outcome : Type :=
| Returned
| Panicked (msg : string).

Fixpoint run_prog (p : Prog) (q : Queue) (delay : Z) : Outcome * Queue * Z :=
  match p with
  | Return => (Returned, q, delay)
  | Panic msg => (Panicked msg, q, delay)
  | CallDelay sec k => run_prog k q sec
  | CallAdd data k => let '(e, q') := Add data q in run_prog (k e) q' delay
  | CallGet limit k => let '(r, q') := Get limit q in run_prog (k r) q' delay
  | CallDelete id k => let '(e, q') := Delete id q in run_prog (k e) q' delay
  | CallListener f k => run_prog k (Listener f q) delay
  | CallClose k => let '(e, q') := Close q in run_prog (k e) q' delay
  end.

(** The durations the callback passed to the delay setter, in call order. *)
Fixpoint delay_calls (p : Prog) (q : Queue) : list Z :=
  match p with
  | Return => []
  | Panic _ => []
  | CallDelay sec k => sec :: delay_calls k q
  | CallAdd data k => let '(e, q') := Add data q in delay_calls (k e) q'
  | CallGet limit k => let '(r, q') := Get limit q in delay_calls (k r) q'
  | CallDelete id k => let '(e, q') := Delete id q in delay_calls (k e) q'
  | CallListener f k => delay_calls k (Listener f q)
  | CallClose k => let '(e, q') := Close q in delay_calls (k e) q'
  end.

(** The ids the callback passed to [Delete], in call order. *)
Fixpoint delete_calls (p : Prog) (q : Queue) : list Z :=
  match p with
  | Return => []
  | Panic _ => []
  | CallDelay sec k => delete_calls k q
  | CallAdd data k => let '(e, q') := Add data q in delete_calls (k e) q'
  | CallGet limit k => let '(r, q') := Get limit q in delete_calls (k r) q'
  | CallDelete id k => let '(e, q') := Delete id q in id :: delete_calls (k e) q'
  | CallListener f k => delete_calls k (Listener f q)
  | CallClose k => let '(e, q') := Close q in delete_calls (k e) q'
  end.

(** How many times the callback called [Listener] or [Close]. *)
Fixpoint handle_calls (p : Prog) (q : Queue) : nat :=
  match p with
  | Return => 0
  | Panic _ => 0
  | CallDelay sec k => handle_calls k q
  | CallAdd data k => let '(e, q') := Add data q in handle_calls (k e) q'
  | CallGet limit k => let '(r, q') := Get limit q in handle_calls (k r) q'
  | CallDelete id k => let '(e, q') := Delete id q in handle_calls (k e) q'
  | CallListener f k => S (handle_calls k (Listener f q))
  | CallClose k => let '(e, q') := Close q in S (handle_calls (k e) q')
  end.

(** ** The dispatch loop *)

Inductive Event : Type :=
| EvShutdown                 (* "Shutting down process loop" *)
| EvFetchError (e : error)   (* "Error retrieving item:" *)
| EvIdle                     (* time.Sleep(2 * time.Second) *)
| EvInvoke (it : Item)       (* c.clb(item, broken) *)
| EvSleep (d : Z)            (* time.Sleep(delay) *)
| EvRecovered (msg : string). (* "Recovered from panic:" *)

Inductive Status : Type :=
| Looping      (* the [for] goes round again *)
| Restarted    (* the deferred function calls c.process() *)
| Stopped.     (* return *)

(** [for _, item := range items { ... }]; the third component is the value
    of a panic that escaped the callback. *)
Fixpoint deliver (items : list Item) (q : Queue) : list Event * Queue * option string :=
  match items with
  | [] => ([], q, None)
  | item :: rest =>
      let '(o, q1, delay) := run_prog (clb q item) q 0 in
      match o with
      | Panicked msg => ([EvInvoke item], q1, Some msg)
      | Returned =>
          let sl := if 0 <? delay then [EvSleep delay] else [] in
          let '(ev, q2, r) := deliver rest q1 in
          (EvInvoke item :: sl ++ ev, q2, r)
      end
  end.

(** One round of the [for { select { ... } }] of [process]. *)
Definition iteration (q : Queue) : list Event * Queue * Status :=
  if cancelled q then ([EvShutdown], q, Stopped)
  else
    let '((items, err), q1) := Get 1 q in
    match err with
    | Some e => ([EvFetchError e], q1, Looping)
    | None =>
        if 0 <? Z.of_nat (List.length items) then
          match deliver items q1 with
          | (ev, q2, Some msg) => (ev ++ [EvRecovered msg], q2, Restarted)
          | (ev, q2, None) => (ev, q2, Looping)
          end
        else ([EvIdle], q1, Looping)
    end.

(** [func (c *Queue) process()], one unit of fuel per round. A restart after
    a recovered panic runs [process] again from its first line; when that
    nested call returns, so does the outer one. *)
Fixpoint process (fuel : nat) (q : Queue) : list Event * Queue :=
  match fuel with
  | O => ([], q)
  | S n =>
      let '(ev, q1, st) := iteration q in
      match st with
      | Stopped => (ev, q1)
      | Looping | Restarted =>
          let '(ev', q2) := process n q1 in (ev ++ ev', q2)
      end
  end.

(** ** Configuration and construction *)

Record Config : Type := mkConfig {
  LocalFile : string;
  Reset : bool
}.

(** What SQLite takes a data source name for: a database file at a path of
    the file system, or a database in memory. *)
Inductive Target : Type :=
| OnDisk (path : string)
| InMemory.

(** What [New] sees of the process and of the machine: the package-level
    [counter], the database files of the file system by path, the paths that
    [os.Remove] cannot remove, the data source names that cannot be opened,
    and how the SQLite library reads a data source name (a plain file name,
    a [file:] URI with its query parameters, [:memory:]). An in-memory
    database lives in the process; this model has no other handle that could
    keep one alive, so opening one starts from an empty database. *)
Record World : Type := mkWorld {
  counter : Z;
  files : string -> option Store;
  remove_err : string -> option string;
  open_err : string -> option string;
  target : string -> Target
}.

(** [fmt.Sprintf("file:memdb%d?mode=memory&cache=shared", counter)] after
    [counter++]. *)
Definition getNextLocalFile (w : World) : string * World :=
  let c := wrap64 (counter w + 1) in
  (("file:memdb" ++ NilZero.string_of_int (Z.to_int c)
      ++ "?mode=memory&cache=shared")%string,
   mkWorld c (files w) (remove_err w) (open_err w) (target w)).

Definition configDefault (config : list Config) (w : World) : Config * World :=
  let '(lf, w') := getNextLocalFile w in
  let defaultValue := mkConfig lf false in
  match config with
  | [] => (defaultValue, w')
  | cfg :: _ =>
      if (LocalFile cfg =? EmptyString)%string
      then (mkConfig (LocalFile defaultValue) (Reset cfg), w')
      else (cfg, w')
  end.

Inductive RemoveResult : Type :=
| RemoveOk
| RemoveNotExist
| RemoveFailed (msg : string).

(** [os.Remove(path)]: the argument is a path of the file system, whatever
    SQLite would take the same string for. *)
Definition os_Remove (path : string) (w : World) : RemoveResult * World :=
  match remove_err w path with
  | Some msg => (RemoveFailed msg, w)
  | None =>
      match files w path with
      | None => (RemoveNotExist, w)
      | Some _ =>
          (RemoveOk,
           mkWorld (counter w)
                   (fun p => if (p =? path)%string then None else files w p)
                   (remove_err w) (open_err w) (target w))
      end
  end.

(** [sql.Open] followed by [CREATE TABLE IF NOT EXISTS queue]: SQLite opens
    what it takes the data source name for, and creates the database file
    and the table when they are missing. *)
Definition open_store (dsn : string) (w : World) : (error + Store) * World :=
  match open_err w dsn with
  | Some msg => (inl (ErrDriver msg), w)
  | None =>
      match target w dsn with
      | InMemory => (inr empty_store, w)
      | OnDisk path =>
          match files w path with
          | Some s => (inr s, w)
          | None =>
              (inr empty_store,
               mkWorld (counter w)
                       (fun p => if (p =? path)%string
                                 then Some empty_store else files w p)
                       (remove_err w) (open_err w) (target w))
          end
      end
  end.

(** [strings.HasPrefix(cfg.LocalFile, "file::memory_")] *)
Definition inMemory (cfg : Config) : bool :=
  String.prefix "file::memory_" (LocalFile cfg).

(** [func New(config ...Config)], returning the queue or an error; the
    goroutine started by [go c.process()] is [process] on the returned
    queue. *)
Definition New (config : list Config) (w : World) : (error + Queue) * World :=
  let '(cfg, w0) := configDefault config w in
  let '(r, w1) :=
    if Reset cfg && negb (inMemory cfg)
    then os_Remove (LocalFile cfg) w0
    else (RemoveNotExist, w0) in
  match r with
  | RemoveFailed msg => (inl (ErrOS msg), w1)
  | RemoveOk | RemoveNotExist =>
      match open_store (LocalFile cfg) w1 with
      | (inl e, w2) => (inl e, w2)
      | (inr s, w2) =>
          (inr (mkQueue (mkDB s false) false (fun _ => Return)), w2)
      end
  end.

(** Whether [New] called [os.Remove] on the locator it resolved. *)
Definition purges (config : list Config) (w : World) : bool :=
  let '(cfg, _) := configDefault config w in
  Reset cfg && negb (inMemory cfg).

(** ** Invariant of a storage target and scenarios *)

(** Rows are in strictly ascending id order, ids start at 1, and none is
    above the high-water mark. *)
Record store_ok (s : Store) : Prop := mk_store_ok {
  ok_ascending : StronglySorted Z.lt (ids (rows s));
  ok_bounds : Forall (fun it => 1 <= ID it <= seq s) (rows s);
  ok_seq : 0 <= seq s
}.

(** The calls [Add(p1); ...; Add(pn)] with non-nil payloads, stopping at the
    first error. *)
Fixpoint add_all (ps : list (list byte)) (q : Queue) : option error * Queue :=
  match ps with
  | [] => (None, q)
  | p :: ps' =>
      match Add (Some p) q with
      | (Some e, q') => (Some e, q')
      | (None, q') => add_all ps' q'
      end
  end.

(** The Items that [n] successive inserts create above high-water mark
    [base]. *)
Fixpoint fresh_items (base : Z) (ps : list (list byte)) : list Item :=
  match ps with
  | [] => []
  | p :: ps' => mkItem (base + 1) p :: fresh_items (base + 1) ps'
  end.

(** A call of the store API or of [Listener] by any caller. *)
Inductive Op : Type :=
| OpAdd (data : payload)
| OpGet (limit : Z)
| OpDelete (id : Z)
| OpListener (f : Callback)
| OpClose
| OpDispatch (fuel : nat).   (* the dispatch loop runs for some rounds *)

Definition apply_op (o : Op) (q : Queue) : Queue :=
  match o with
  | OpAdd data => snd (Add data q)
  | OpGet limit => snd (Get limit q)
  | OpDelete id => snd (Delete id q)
  | OpListener f => Listener f q
  | OpClose => snd (Close q)
  | OpDispatch fuel => snd (process fuel q)
  end.

Definition apply_ops (os : list Op) (q : Queue) : Queue :=
  fold_left (fun q o => apply_op o q) os q.

(** A property of the queue state that the writes of the store API keep. *)
Record store_stable (P : Queue -> Prop) : Prop := mk_store_stable {
  stable_Add : forall data q, P q -> P (snd (Add data q));
  stable_Delete : forall id q, P q -> P (snd (Delete id q))
}.

(** A property of the queue state that no call of the public interface can
    break. *)
Record api_stable (P : Queue -> Prop) : Prop := mk_api_stable {
  stable_store : store_stable P;
  stable_Listener : forall f q, P q -> P (Listener f q);
  stable_Close : forall q, P q -> P (snd (Close q))
}.

(** The handle part of the queue state: everything but the table. *)
Definition same_handle (q0 q : Queue) : Prop :=
  closed (db q) = closed (db q0) /\
  cancelled q = cancelled q0 /\
  clb q = clb q0.

(** [id] is at or below the high-water mark and no row carries it. *)
Definition retired (id : Z) (q : Queue) : Prop :=
  store_ok (store (db q)) /\
  id <= seq (store (db q)) /\
  ~ In id (ids (rows (store (db q)))).

(** ** Sample values *)

Definition item_A : Item := mkItem 1 [x41].
Definition item_B : Item := mkItem 2 [x42].

Definition noop : Callback := fun _ => Return.

Definition queue_of (l : list Item) (hw : Z) (f : Callback) : Queue :=
  mkQueue (mkDB (mkStore l hw) false) false f.

Definition q_fresh : Queue := queue_of [] 0 noop.
Definition q_AB : Queue := queue_of [item_A; item_B] 2 noop.

(** A driver whose second row cannot be scanned. *)
Definition bad_scan_query : DB -> Z -> error + Rows :=
  fun _ _ => inr [ScanOk item_A; ScanErr (ErrDriver "scan")].

(** A reading of data source names that covers the ones used below: a
    [file:] URI names an in-memory database when its query has
    [mode=memory] and otherwise the path between [file:] and the query; any
    other name is a path. *)
Definition uri_target (dsn : string) : Target :=
  if String.prefix "file:" dsn then
    let rest := String.substring 5 (String.length dsn - 5) dsn in
    match String.index 0 "?" rest with
    | Some i =>
        match String.index i "mode=memory" rest with
        | Some _ => InMemory
        | None => OnDisk (String.substring 0 i rest)
        end
    | None => OnDisk rest
    end
  else OnDisk dsn.

Definition w_init : World :=
  mkWorld 0 (fun _ => None) (fun _ => None) (fun _ => None) uri_target.

(** A callback that sets a delay of five seconds and then takes it back. *)
Definition clb_delay_twice : Callback :=
  fun _ => CallDelay 5000000000 (CallDelay 0 Return).

(** A callback that faults on every Item without acknowledging it. *)
Definition clb_panic : Callback := fun _ => Panic "boom".

Definition q_twice : Queue := queue_of [item_A] 1 clb_delay_twice.
Definition q_poison : Queue := queue_of [item_A] 1 clb_panic.

(** The first locator that [getNextLocalFile] generates. *)
Definition memdb1 : string := "file:memdb1?mode=memory&cache=shared".

(** A machine on which a file of that very name exists. *)
Definition w_file : World :=
  mkWorld 0
          (fun p => if (p =? memdb1)%string
                    then Some (mkStore [item_A; item_B] 2) else None)
          (fun _ => None) (fun _ => None) uri_target.

(** A machine on which that path cannot be removed. *)
Definition w_locked : World :=
  mkWorld 0 (fun _ => None)
          (fun p => if (p =? memdb1)%string
                    then Some "directory not empty"%string else None)
          (fun _ => None) uri_target.

(** The poisoned queue after [Add] of a second payload. *)
Definition q_poison_B : Queue := queue_of [item_A; item_B] 2 clb_panic.

(** A callback that asks once for a pause of three nanoseconds. *)
Definition clb_delay_once : Callback := fun _ => CallDelay 3 Return.
Definition q_once : Queue := queue_of [item_A] 1 clb_delay_once.

(** ** Further scenarios *)

(** The Items that a trace handed to the callback, in order. *)
Fixpoint invoked (evs : list Event) : list Item :=
  match evs with
  | [] => []
  | EvInvoke it :: evs' => it :: invoked evs'
  | _ :: evs' => invoked evs'
  end.

(** A callback acknowledges its Items when, on every Item and in every
    queue state, it returns and leaves the queue as [Delete(item.ID)]
    does. *)
Definition acknowledges (f : Callback) : Prop :=
  forall (q : Queue) (item : Item),
    fst (fst (run_prog (f item) q 0)) = Returned /\
    snd (fst (run_prog (f item) q 0)) = snd (Delete (ID item) q).

(** The listener [func(item, _) { q.Delete(item.ID) }]. *)
Definition clb_ack : Callback :=
  fun item => CallDelete (ID item) (fun _ => Return).

Definition q_ack : Queue := queue_of [item_A; item_B] 2 clb_ack.

(** A machine with a database file [queue.db] holding two rows. *)
Definition w_disk : World :=
  mkWorld 0
          (fun p => if (p =? "queue.db")%string
                    then Some (mkStore [item_A; item_B] 2) else None)
          (fun _ => None) (fun _ => None) uri_target.

(** A listener that closes the queue and acknowledges nothing. *)
Definition clb_close : Callback := fun _ => CallClose (fun _ => Return).
Definition q_closer : Queue := queue_of [item_A] 1 clb_close.

(** A driver for which the database is read-only. *)
Definition readonly_exec : DB -> bool -> payload -> error + Store :=
  fun _ _ _ => inl (ErrDriver "attempt to write a readonly database").

(** A driver succeeds only as the model database does when each of its
    successes is the insert that the model database performs; it may fail
    where the model database does not. *)
Definition fails_more (exec : DB -> bool -> payload -> error + Store) : Prop :=
  forall d ctx_done data s,
    exec d ctx_done data = inr s -> db_exec_insert d ctx_done data = inr s.

(** * Properties *)

(** ** Elementary facts about the operations *)

Lemma queue_eta (q : Queue) :
  mkQueue (mkDB (mkStore (rows (store (db q))) (seq (store (db q))))
                (closed (db q)))
          (cancelled q) (clb q) = q.
Proof. destruct q as [[[r s] c] x f]; reflexivity. Qed.

Lemma scan_rows_ok (l acc : list Item) :
  scan_rows (map ScanOk l) acc = (acc ++ l, None).
Proof.
  revert acc; induction l as [|it l IH]; intros acc; simpl.
  - now rewrite app_nil_r.
  - rewrite IH, <- app_assoc; reflexivity.
Qed.

Lemma scan_rows_error (rs : Rows) (acc items : list Item) (e : error) :
  scan_rows rs acc = (items, Some e) -> items = [].
Proof.
  revert acc; induction rs as [|[it|e'] rs IH]; intros acc; simpl.
  - discriminate.
  - apply IH.
  - now intros [= <- _].
Qed.

Lemma Get_open (limit : Z) (q : Queue) :
  closed (db q) = false ->
  Get limit q = ((sql_limit limit (rows (store (db q))), None), q).
Proof.
  intros Hopen; unfold Get, Get_with, db_query, sql_select.
  rewrite Hopen, scan_rows_ok; reflexivity.
Qed.

Lemma Get_closed (limit : Z) (q : Queue) :
  closed (db q) = true -> Get limit q = (([], Some ErrDBClosed), q).
Proof.
  intros Hc; unfold Get, Get_with, db_query; now rewrite Hc.
Qed.

Lemma Get_state (limit : Z) (q : Queue) : snd (Get limit q) = q.
Proof.
  unfold Get, Get_with; destruct (db_query (db q) limit); reflexivity.
Qed.

Lemma filter_absent (id : Z) (l : list Item) :
  ~ In id (ids l) -> filter (fun it => negb (ID it =? id)) l = l.
Proof.
  induction l as [|it l IH]; simpl; intros Hn; [reflexivity|].
  destruct (Z.eqb_spec (ID it) id) as [Heq|Hne]; simpl.
  - exfalso; apply Hn; now left.
  - f_equal; apply IH; intros Hin; apply Hn; now right.
Qed.

Lemma filter_removes (id : Z) (l : list Item) :
  ~ In id (ids (filter (fun it => negb (ID it =? id)) l)).
Proof.
  unfold ids; rewrite in_map_iff; intros [it [Hid Hin]].
  apply filter_In in Hin; destruct Hin as [_ Hb]; simpl in Hb.
  rewrite Hid, Z.eqb_refl in Hb; discriminate.
Qed.

Lemma sql_limit_prefix (limit : Z) (l : list Item) :
  exists rest, l = sql_limit limit l ++ rest.
Proof.
  unfold sql_limit; destruct (limit <? 0).
  - exists []; now rewrite app_nil_r.
  - exists (skipn (Z.to_nat limit) l); now rewrite firstn_skipn.
Qed.

Lemma ids_app (l1 l2 : list Item) : ids (l1 ++ l2) = ids l1 ++ ids l2.
Proof. apply map_app. Qed.

Lemma sorted_app_inv (l1 l2 : list Z) :
  StronglySorted Z.lt (l1 ++ l2) ->
  StronglySorted Z.lt l1 /\ StronglySorted Z.lt l2 /\
  forall a b, In a l1 -> In b l2 -> a < b.
Proof.
  induction l1 as [|x l1 IH]; simpl; intros Hs.
  - repeat split; [constructor | assumption | intros a b []].
  - apply StronglySorted_inv in Hs; destruct Hs as [Hs Hx].
    destruct (IH Hs) as [H1 [H2 H3]].
    rewrite Forall_app in Hx; destruct Hx as [Hx1 Hx2].
    repeat split; [now constructor | assumption |].
    intros a b [<-|Ha] Hb.
    + rewrite Forall_forall in Hx2; now apply Hx2.
    + now apply H3.
Qed.

Lemma sorted_snoc (l : list Z) (x : Z) :
  StronglySorted Z.lt l -> Forall (fun a => a < x) l ->
  StronglySorted Z.lt (l ++ [x]).
Proof.
  induction 1 as [|a l Hs IH Ha]; simpl; intros Hx.
  - repeat constructor.
  - inversion Hx as [|? ? Hax Hlx]; subst.
    constructor; [now apply IH|].
    rewrite Forall_app; split; [assumption | now repeat constructor].
Qed.

Lemma max_rowid_bound (l : list Item) (b : Z) :
  0 <= b -> Forall (fun it => 1 <= ID it <= b) l -> max_rowid l <= b.
Proof.
  intros Hb; induction 1 as [|it l [_ Hit] _ IH]; simpl; lia.
Qed.

Lemma next_rowid_ok (s : Store) : store_ok s -> next_rowid s = seq s + 1.
Proof.
  intros [_ Hb Hs]; unfold next_rowid.
  pose proof (max_rowid_bound _ _ Hs Hb); lia.
Qed.

(** ** Get *)

(** C10. Whenever [Get] returns a non-nil error, whether the query failed or
    the scan of some row did, the Item slice it returns is nil: the Items
    collected so far are dropped. This holds for every behaviour of the
    driver. *)
Theorem C10_Get_error_no_items
  (query : DB -> Z -> error + Rows) (limit : Z) (q : Queue)
  (items : list Item) (e : error) :
  fst (Get_with query limit q) = (items, Some e) -> items = [].
Proof.
  unfold Get_with; destruct (query (db q) limit) as [e'|rs]; simpl.
  - now intros [= <- _].
  - apply scan_rows_error.
Qed.

Lemma C10_Get_error_no_items_witness :
  fst (Get_with bad_scan_query 2 q_AB) = ([], Some (ErrDriver "scan")) /\
  ([] : list Item) = [].
Proof.
  split; [reflexivity|].
  apply (C10_Get_error_no_items bad_scan_query 2 q_AB [] (ErrDriver "scan")).
  reflexivity.
Defined.

(** C4. [Get] is a peek: the queue state after [Get] is the state before,
    so a second [Get] with the same bound returns what the first returned.
    This holds for every driver, and in particular for the model database. *)
Theorem C4_Get_is_peek (k : Z) (q : Queue) :
  (forall query : DB -> Z -> error + Rows,
      snd (Get_with query k q) = q /\
      fst (Get_with query k (snd (Get_with query k q)))
      = fst (Get_with query k q)) /\
  snd (Get k q) = q /\
  fst (Get k (snd (Get k q))) = fst (Get k q).
Proof.
  assert (H : forall query, snd (Get_with query k q) = q).
  { intros query; unfold Get_with; destruct (query (db q) k); reflexivity. }
  split; [|split].
  - intros query; split; [apply H | now rewrite H].
  - apply Get_state.
  - now rewrite Get_state.
Qed.

(** C9. On an open database, [Get(0)] returns the empty slice and no error,
    and [Get] with a negative bound returns every row of the table and no
    error. *)
Theorem C9_Get_nonpositive_limit (q : Queue) :
  closed (db q) = false ->
  fst (Get 0 q) = ([], None) /\
  forall limit, limit < 0 ->
    fst (Get limit q) = (rows (store (db q)), None).
Proof.
  intros Hopen; split.
  - now rewrite (Get_open 0 q Hopen).
  - intros limit Hneg; rewrite (Get_open limit q Hopen); simpl.
    unfold sql_limit; destruct (Z.ltb_spec limit 0); [reflexivity | lia].
Qed.

Lemma C9_Get_nonpositive_limit_witness :
  closed (db q_AB) = false /\
  fst (Get 0 q_AB) = ([], None) /\
  fst (Get (-1) q_AB) = ([item_A; item_B], None).
Proof.
  split; [reflexivity|].
  destruct (C9_Get_nonpositive_limit q_AB eq_refl) as [H0 Hneg].
  split; [exact H0 | apply (Hneg (-1)); lia].
Defined.

(** ** Delete *)

(** C7. On an open database, [Delete] of an id that no row carries returns
    no error and leaves the queue state as it was; in particular a second
    [Delete] of the same id does so. *)
Theorem C7_Delete_absent_noop (id : Z) (q : Queue) :
  closed (db q) = false ->
  (~ In id (ids (rows (store (db q)))) -> Delete id q = (None, q)) /\
  Delete id (snd (Delete id q)) = (None, snd (Delete id q)).
Proof.
  intros Hopen.
  assert (H : forall q', closed (db q') = false ->
                         ~ In id (ids (rows (store (db q')))) ->
                         Delete id q' = (None, q')).
  { intros q' Ho Hn; unfold Delete, with_store, sql_delete.
    rewrite Ho, (filter_absent _ _ Hn), <- Ho, queue_eta; reflexivity. }
  split; [apply H; assumption|].
  apply H; unfold Delete; rewrite Hopen; simpl; [assumption|].
  apply filter_removes.
Qed.

Lemma C7_Delete_absent_noop_witness :
  closed (db q_AB) = false /\
  Delete 7 q_AB = (None, q_AB) /\
  Delete 1 (snd (Delete 1 q_AB)) = (None, snd (Delete 1 q_AB)).
Proof.
  split; [reflexivity|].
  destruct (C7_Delete_absent_noop 7 q_AB eq_refl) as [Habs _].
  destruct (C7_Delete_absent_noop 1 q_AB eq_refl) as [_ Htwice].
  split; [apply Habs; vm_compute; intuition discriminate | exact Htwice].
Defined.

(** ** The storage invariant *)

Lemma store_ok_empty : store_ok empty_store.
Proof. split; simpl; [constructor | constructor | lia]. Qed.

Lemma sql_insert_ok (data : list byte) (s : Store) :
  store_ok s -> seq s < max_int64 ->
  sql_insert data s
  = inr (mkStore (rows s ++ [mkItem (seq s + 1) data]) (seq s + 1)).
Proof.
  intros Hok Hlt; unfold sql_insert; rewrite (next_rowid_ok _ Hok).
  destruct (Z.ltb_spec max_int64 (seq s + 1)); [lia | reflexivity].
Qed.

Lemma sql_insert_full (data : list byte) (s : Store) :
  store_ok s -> max_int64 <= seq s -> sql_insert data s = inl ErrFull.
Proof.
  intros Hok Hge; unfold sql_insert; rewrite (next_rowid_ok _ Hok).
  destruct (Z.ltb_spec max_int64 (seq s + 1)); [reflexivity | lia].
Qed.

Lemma store_ok_snoc (s : Store) (data : list byte) :
  store_ok s ->
  store_ok (mkStore (rows s ++ [mkItem (seq s + 1) data]) (seq s + 1)).
Proof.
  intros [Ha Hb Hs]; split; simpl.
  - rewrite ids_app; apply sorted_snoc; [assumption|].
    unfold ids; rewrite Forall_map.
    eapply Forall_impl; [|exact Hb]; simpl; intros; lia.
  - rewrite Forall_app; split.
    + eapply Forall_impl; [|exact Hb]; simpl; intros; lia.
    + repeat constructor; simpl; lia.
  - lia.
Qed.

Lemma sorted_filter (f : Item -> bool) (l : list Item) :
  StronglySorted Z.lt (ids l) -> StronglySorted Z.lt (ids (filter f l)).
Proof.
  induction l as [|it l IH]; simpl; intros Hs; [constructor|].
  apply StronglySorted_inv in Hs; destruct Hs as [Hs Hall].
  destruct (f it); simpl; [|now apply IH].
  constructor; [now apply IH|].
  unfold ids in *; rewrite Forall_map in *.
  rewrite Forall_forall in *; intros x Hx.
  apply Hall; now apply filter_In in Hx.
Qed.

Lemma store_ok_delete (id : Z) (s : Store) :
  store_ok s -> store_ok (sql_delete id s).
Proof.
  intros [Ha Hb Hs]; split; simpl; [now apply sorted_filter | | assumption].
  rewrite Forall_forall in *; intros x Hx.
  apply Hb; now apply filter_In in Hx.
Qed.

Lemma Add_ok (data : list byte) (q : Queue) :
  closed (db q) = false -> cancelled q = false ->
  store_ok (store (db q)) -> seq (store (db q)) < max_int64 ->
  Add (Some data) q
  = (None,
     with_store q (mkStore (rows (store (db q))
                              ++ [mkItem (seq (store (db q)) + 1) data])
                           (seq (store (db q)) + 1))).
Proof.
  intros Ho Hc Hok Hlt; unfold Add.
  now rewrite Ho, Hc, (sql_insert_ok _ _ Hok Hlt).
Qed.

Lemma fresh_items_data (base : Z) (ps : list (list byte)) :
  map Data (fresh_items base ps) = ps.
Proof.
  revert base; induction ps as [|p ps IH]; intros base; simpl;
    [reflexivity | now rewrite IH].
Qed.

Lemma fresh_items_ids (base : Z) (ps : list (list byte)) :
  ids (fresh_items base ps)
  = map (fun i => base + Z.of_nat i) (List.seq 1 (List.length ps)).
Proof.
  revert base; induction ps as [|p ps IH]; intros base; simpl;
    [reflexivity|].
  f_equal; try lia.
  rewrite IH, <- (seq_shift (List.length ps) 1), map_map.
  apply map_ext; intros i; lia.
Qed.

Lemma fresh_items_length (base : Z) (ps : list (list byte)) :
  List.length (fresh_items base ps) = List.length ps.
Proof.
  revert base; induction ps as [|p ps IH]; intros base; simpl;
    [reflexivity | now rewrite IH].
Qed.

Lemma add_all_ok (ps : list (list byte)) (q : Queue) :
  closed (db q) = false -> cancelled q = false ->
  store_ok (store (db q)) ->
  seq (store (db q)) + Z.of_nat (List.length ps) <= max_int64 ->
  add_all ps q
  = (None,
     with_store q
       (mkStore (rows (store (db q)) ++ fresh_items (seq (store (db q))) ps)
                (seq (store (db q)) + Z.of_nat (List.length ps)))).
Proof.
  revert q; induction ps as [|p ps IH]; intros q Ho Hc Hok Hle.
  - simpl; rewrite app_nil_r, Z.add_0_r.
    unfold with_store; now rewrite queue_eta.
  - cbn [add_all]; cbn [List.length] in Hle.
    rewrite (Add_ok p q Ho Hc Hok) by lia.
    rewrite IH; unfold with_store;
      cbn [db store rows seq closed cancelled clb]; try assumption.
    + cbn [List.length app fresh_items].
      rewrite <- app_assoc, Nat2Z.inj_succ; cbn [app].
      do 4 f_equal; lia.
    + now apply store_ok_snoc.
    + rewrite Nat2Z.inj_succ in Hle; lia.
Qed.

Lemma fresh_items_above (base : Z) (ps : list (list byte)) :
  Forall (fun x => base < x) (ids (fresh_items base ps)).
Proof.
  revert base; induction ps as [|p ps IH]; intros base; simpl;
    constructor; [lia|].
  eapply Forall_impl; [|apply IH]; simpl; intros; lia.
Qed.

Lemma fresh_items_sorted (base : Z) (ps : list (list byte)) :
  StronglySorted Z.lt (ids (fresh_items base ps)).
Proof.
  revert base; induction ps as [|p ps IH]; intros base; simpl;
    constructor; [apply IH | apply fresh_items_above].
Qed.

Lemma sql_limit_all (l : list Item) :
  sql_limit (Z.of_nat (List.length l)) l = l.
Proof.
  unfold sql_limit.
  destruct (Z.ltb_spec (Z.of_nat (List.length l)) 0); [lia|].
  rewrite Nat2Z.id; apply firstn_all.
Qed.

(** C1. On an open database whose table satisfies the storage invariant,
    [Get(limit)] returns, without error, a leading segment of the table:
    the returned Items are in strictly ascending id order, every Item left
    out has a larger id than every Item returned, and for a bound that is
    not negative their number is the smaller of the bound and the number of
    rows. For payloads [p1..pn] added to an empty table with room for [n]
    more ids, all the [Add]s succeed and [Get(n)] then returns exactly [n]
    Items carrying [p1..pn] in that order, with the consecutive ids that
    follow the high-water mark. *)
Theorem C1_Get_oldest_first_fifo :
  (forall (q : Queue) (limit : Z),
      closed (db q) = false -> store_ok (store (db q)) ->
      exists items rest,
        fst (Get limit q) = (items, None) /\
        rows (store (db q)) = items ++ rest /\
        StronglySorted Z.lt (ids items) /\
        (forall a b, In a items -> In b rest -> ID a < ID b) /\
        (0 <= limit ->
         List.length items
         = Nat.min (Z.to_nat limit) (List.length (rows (store (db q)))))) /\
  (forall (q : Queue) (ps : list (list byte)),
      closed (db q) = false -> cancelled q = false ->
      store_ok (store (db q)) -> rows (store (db q)) = [] ->
      seq (store (db q)) + Z.of_nat (List.length ps) <= max_int64 ->
      exists q' items,
        add_all ps q = (None, q') /\
        fst (Get (Z.of_nat (List.length ps)) q') = (items, None) /\
        map Data items = ps /\
        StronglySorted Z.lt (ids items) /\
        ids items = map (fun i => seq (store (db q)) + Z.of_nat i)
                        (List.seq 1 (List.length ps))).
Proof.
  split.
  - intros q limit Hopen [Hasc _ _].
    destruct (sql_limit_prefix limit (rows (store (db q)))) as [rest Hrest].
    exists (sql_limit limit (rows (store (db q)))), rest.
    rewrite (Get_open limit q Hopen); cbn [fst].
    rewrite Hrest, ids_app in Hasc.
    destruct (sorted_app_inv _ _ Hasc) as [H1 [_ H3]].
    repeat split; try assumption.
    + intros a b Ha Hb; apply H3; unfold ids; now apply in_map.
    + intros Hpos; unfold sql_limit.
      destruct (Z.ltb_spec limit 0); [lia | apply length_firstn].
  - intros q ps Hopen Hrun Hok Hempty Hroom.
    eexists; exists (fresh_items (seq (store (db q))) ps).
    rewrite (add_all_ok ps q Hopen Hrun Hok Hroom), Hempty.
    split; [reflexivity|].
    rewrite Get_open by exact Hopen.
    cbn [fst with_store db store rows app].
    rewrite <- (fresh_items_length (seq (store (db q))) ps), sql_limit_all.
    rewrite fresh_items_length.
    repeat split.
    + apply fresh_items_data.
    + apply fresh_items_sorted.
    + apply fresh_items_ids.
Qed.

Lemma C1_Get_oldest_first_fifo_witness :
  (closed (db q_AB) = false /\ store_ok (store (db q_AB))) /\
  (exists items rest,
      fst (Get 1 q_AB) = (items, None) /\
      rows (store (db q_AB)) = items ++ rest /\
      StronglySorted Z.lt (ids items) /\
      (forall a b, In a items -> In b rest -> ID a < ID b) /\
      (0 <= 1 ->
       List.length items
       = Nat.min (Z.to_nat 1) (List.length (rows (store (db q_AB)))))) /\
  (closed (db q_fresh) = false /\ cancelled q_fresh = false /\
   store_ok (store (db q_fresh)) /\ rows (store (db q_fresh)) = [] /\
   seq (store (db q_fresh)) + Z.of_nat (List.length [[x41]; [x42]])
   <= max_int64) /\
  (exists q' items,
      add_all [[x41]; [x42]] q_fresh = (None, q') /\
      fst (Get (Z.of_nat (List.length [[x41]; [x42]])) q') = (items, None) /\
      map Data items = [[x41]; [x42]] /\
      StronglySorted Z.lt (ids items) /\
      ids items = map (fun i => seq (store (db q_fresh)) + Z.of_nat i)
                      (List.seq 1 (List.length [[x41]; [x42]]))).
Proof.
  assert (HokAB : store_ok (store (db q_AB))).
  { split; simpl; repeat constructor; cbn; lia. }
  assert (Hok0 : store_ok (store (db q_fresh))) by exact store_ok_empty.
  assert (Hroom : seq (store (db q_fresh))
                  + Z.of_nat (List.length [[x41]; [x42]]) <= max_int64).
  { vm_compute; discriminate. }
  split; [split; [reflexivity | exact HokAB]|].
  split; [exact (proj1 C1_Get_oldest_first_fifo q_AB 1 eq_refl HokAB)|].
  split; [exact (conj eq_refl (conj eq_refl (conj Hok0 (conj eq_refl Hroom))))|].
  exact (proj2 C1_Get_oldest_first_fifo q_fresh [[x41]; [x42]]
               eq_refl eq_refl Hok0 eq_refl Hroom).
Defined.

(** ** What the dispatch loop can do to the queue state *)

Section Stable.

Variable P : Queue -> Prop.
Hypothesis HP : api_stable P.

Lemma run_prog_stable (p : Prog) (q : Queue) (delay : Z) :
  P q -> P (snd (fst (run_prog p q delay))).
Proof.
  pose proof HP as [HS HL HC].
  revert q delay;
    induction p
      as [|msg|sec k IH|data k IH|limit k IH|id k IH|f IHf k IH|k IH];
    intros q delay Hq; cbn [run_prog].
  - exact Hq.
  - exact Hq.
  - now apply IH.
  - pose proof (stable_Add P HS data q Hq) as H1.
    destruct (Add data q) as [e q1]; now apply IH.
  - pose proof (Get_state limit q) as H1.
    destruct (Get limit q) as [r q1]; simpl in H1; subst q1.
    now apply IH.
  - pose proof (stable_Delete P HS id q Hq) as H1.
    destruct (Delete id q) as [e q1]; now apply IH.
  - apply IH; now apply HL.
  - pose proof (HC q Hq) as H1.
    destruct (Close q) as [e q1]; now apply IH.
Qed.

Lemma deliver_stable (items : list Item) (q : Queue) :
  P q -> P (snd (fst (deliver items q))).
Proof.
  revert q; induction items as [|item rest IH]; intros q Hq;
    cbn [deliver]; [exact Hq|].
  pose proof (run_prog_stable (clb q item) q 0 Hq) as H1.
  destruct (run_prog (clb q item) q 0) as [[o q1] delay]; simpl in H1.
  destruct o; [|exact H1].
  specialize (IH q1 H1).
  destruct (deliver rest q1) as [[ev q2] r]; exact IH.
Qed.

Lemma iteration_stable (q : Queue) :
  P q -> P (snd (fst (iteration q))).
Proof.
  intros Hq; unfold iteration.
  destruct (cancelled q); [exact Hq|].
  pose proof (Get_state 1 q) as H1.
  destruct (Get 1 q) as [[items err] q1]; simpl in H1; subst q1.
  destruct err; [exact Hq|].
  destruct (0 <? Z.of_nat (List.length items)); [|exact Hq].
  pose proof (deliver_stable items q Hq) as H2.
  destruct (deliver items q) as [[ev q2] [msg|]]; exact H2.
Qed.

Lemma process_stable (fuel : nat) (q : Queue) :
  P q -> P (snd (process fuel q)).
Proof.
  revert q; induction fuel as [|n IH]; intros q Hq; cbn [process];
    [exact Hq|].
  pose proof (iteration_stable q Hq) as H1.
  destruct (iteration q) as [[ev q1] st]; simpl in H1.
  specialize (IH q1 H1).
  destruct st; [| |exact H1];
    destruct (process n q1) as [ev' q2]; exact IH.
Qed.

End Stable.

Lemma apply_op_stable (P : Queue -> Prop) (o : Op) (q : Queue) :
  api_stable P -> P q -> P (apply_op o q).
Proof.
  intros HP Hq; pose proof HP as [HS HL HC]; destruct o; cbn [apply_op].
  - now apply (stable_Add P HS).
  - now rewrite Get_state.
  - now apply (stable_Delete P HS).
  - now apply HL.
  - now apply HC.
  - now apply process_stable.
Qed.

Lemma apply_ops_stable (P : Queue -> Prop) (os : list Op) (q : Queue) :
  api_stable P -> P q -> P (apply_ops os q).
Proof.
  intros HP; unfold apply_ops; revert q; induction os as [|o os IH];
    intros q Hq; simpl; [exact Hq|].
  apply IH; now apply apply_op_stable.
Qed.

Lemma same_handle_trans (q0 q1 q2 : Queue) :
  same_handle q0 q1 -> same_handle q1 q2 -> same_handle q0 q2.
Proof.
  intros [H1 [H2 H3]] [H4 [H5 H6]]; repeat split; congruence.
Qed.

Lemma same_handle_stable (q0 : Queue) : store_stable (same_handle q0).
Proof.
  split.
  - intros data q H; unfold Add.
    destruct (closed (db q)); [exact H|].
    destruct (cancelled q) eqn:Hc; [exact H|].
    destruct data as [bs|]; [|exact H].
    destruct (sql_insert bs (store (db q))); [exact H|].
    destruct H as [H1 [H2 H3]]; unfold same_handle, with_store; simpl.
    auto.
  - intros id q H; unfold Delete.
    destruct (closed (db q)); exact H.
Qed.

(** ** Identifiers are never handed out twice *)

Lemma Add_inv (data : payload) (q : Queue) :
  store_ok (store (db q)) ->
  (exists e, Add data q = (Some e, q)) \/
  (exists bs,
      data = Some bs /\
      Add data q
      = (None,
         with_store q (mkStore (rows (store (db q))
                                  ++ [mkItem (seq (store (db q)) + 1) bs])
                               (seq (store (db q)) + 1)))).
Proof.
  intros Hok; unfold Add.
  destruct (closed (db q)); [left; now eexists|].
  destruct (cancelled q); [left; now eexists|].
  destruct data as [bs|]; [|left; now eexists].
  destruct (Z.lt_ge_cases (seq (store (db q))) max_int64) as [Hlt|Hge].
  - right; exists bs; split; [reflexivity|].
    now rewrite (sql_insert_ok _ _ Hok Hlt).
  - left; rewrite (sql_insert_full _ _ Hok Hge); now eexists.
Qed.

Lemma Delete_store (id : Z) (q : Queue) :
  store (db (snd (Delete id q))) = store (db q) \/
  store (db (snd (Delete id q))) = sql_delete id (store (db q)).
Proof.
  unfold Delete; destruct (closed (db q)); [now left | now right].
Qed.

Lemma retired_stable (id : Z) : api_stable (retired id).
Proof.
  split; [split| |].
  - intros data q [Hok [Hle Hnot]].
    destruct (Add_inv data q Hok) as [[e ->]|[bs [_ ->]]];
      [exact (conj Hok (conj Hle Hnot))|].
    unfold retired, with_store; cbn [snd db store rows seq].
    split; [now apply store_ok_snoc|].
    split; [lia|].
    rewrite ids_app, in_app_iff; simpl; intros [Hin|[Heq|[]]];
      [now apply Hnot | lia].
  - intros id' q [Hok [Hle Hnot]]; unfold retired.
    destruct (Delete_store id' q) as [->| ->];
      [exact (conj Hok (conj Hle Hnot))|].
    split; [now apply store_ok_delete|].
    split; [exact Hle|].
    simpl; unfold ids; rewrite in_map_iff; intros [it [Hid Hin]].
    apply filter_In in Hin; destruct Hin as [Hin _].
    apply Hnot; unfold ids; rewrite in_map_iff; now exists it.
  - intros f q H; exact H.
  - intros q H; exact H.
Qed.

Lemma mark_stable (b : Z) :
  api_stable (fun q => store_ok (store (db q)) /\ b <= seq (store (db q))).
Proof.
  split; [split| |].
  - intros data q [Hok Hle].
    destruct (Add_inv data q Hok) as [[e ->]|[bs [_ ->]]]; [now split|].
    unfold with_store; cbn [snd db store rows seq].
    split; [now apply store_ok_snoc | lia].
  - intros id' q [Hok Hle].
    destruct (Delete_store id' q) as [->| ->]; [now split|].
    split; [now apply store_ok_delete | exact Hle].
  - intros f q H; exact H.
  - intros q H; exact H.
Qed.

Lemma Get_items_in_rows (limit : Z) (q : Queue) (it : Item) :
  In it (fst (fst (Get limit q))) -> In it (rows (store (db q))).
Proof.
  destruct (closed (db q)) eqn:Hc.
  - rewrite (Get_closed limit q Hc); intros [].
  - rewrite (Get_open limit q Hc); cbn [fst]; intros Hin.
    destruct (sql_limit_prefix limit (rows (store (db q)))) as [rest ->].
    apply in_or_app; now left.
Qed.

(** C3. Let [id] be an identifier that has been assigned on this storage
    target, that is, one at or below the high-water mark of a table that
    satisfies the storage invariant. Once [Delete(id)] has returned no
    error, then whatever calls of [Add], [Get], [Delete], [Listener] and
    [Close] and whatever rounds of the dispatch loop follow, no [Get]
    returns an Item with that id. The reason is that a successful [Add]
    appends one row whose id is strictly above the high-water mark, hence
    above the id of every row present and of every row deleted before, and
    that the high-water mark never decreases. *)
Theorem C3_deleted_id_never_returns :
  (forall (q : Queue) (id : Z) (os : list Op) (limit : Z),
      store_ok (store (db q)) -> id <= seq (store (db q)) ->
      fst (Delete id q) = None ->
      ~ In id (ids (fst (fst (Get limit
                                  (apply_ops os (snd (Delete id q)))))))) /\
  (forall (q q' : Queue) (data : payload),
      store_ok (store (db q)) -> Add data q = (None, q') ->
      exists it,
        rows (store (db q')) = rows (store (db q)) ++ [it] /\
        data = Some (Data it) /\
        seq (store (db q)) < ID it /\
        ID it = seq (store (db q')) /\
        Forall (fun old => ID old < ID it) (rows (store (db q)))) /\
  (forall (q : Queue) (os : list Op),
      store_ok (store (db q)) ->
      store_ok (store (db (apply_ops os q))) /\
      seq (store (db q)) <= seq (store (db (apply_ops os q)))).
Proof.
  split; [|split].
  - intros q id os limit Hok Hle Hdel Hin.
    assert (Hret : retired id (snd (Delete id q))).
    { unfold Delete in *; destruct (closed (db q)); [discriminate|].
      unfold retired; cbn [snd with_store db store].
      split; [now apply store_ok_delete|].
      split; [exact Hle | apply filter_removes]. }
    pose proof (apply_ops_stable _ os _ (retired_stable id) Hret)
      as [_ [_ Hnot]].
    apply Hnot; unfold ids in *; rewrite in_map_iff in *.
    destruct Hin as [it [Hid Hit]]; exists it; split; [exact Hid|].
    now apply Get_items_in_rows in Hit.
  - intros q q' data Hok Hadd.
    destruct (Add_inv data q Hok) as [[e He]|[bs [-> He]]];
      rewrite He in Hadd; [discriminate|].
    injection Hadd as <-.
    exists (mkItem (seq (store (db q)) + 1) bs).
    unfold with_store; cbn [db store rows seq ID Data].
    repeat split; try lia.
    destruct Hok as [_ Hb _].
    eapply Forall_impl; [|exact Hb]; simpl; intros; lia.
  - intros q os Hok.
    apply (apply_ops_stable _ os q (mark_stable (seq (store (db q))))).
    split; [exact Hok | lia].
Qed.

Lemma C3_deleted_id_never_returns_witness :
  (store_ok (store (db q_AB)) /\ 1 <= seq (store (db q_AB)) /\
   fst (Delete 1 q_AB) = None) /\
  ~ In 1 (ids (fst (fst (Get (-1)
                 (apply_ops [OpAdd (Some [x41]); OpDispatch 2]
                            (snd (Delete 1 q_AB))))))) /\
  Add (Some [x41]) q_AB = (None, snd (Add (Some [x41]) q_AB)) /\
  (exists it,
      rows (store (db (snd (Add (Some [x41]) q_AB))))
      = rows (store (db q_AB)) ++ [it] /\
      Some [x41] = Some (Data it) /\
      seq (store (db q_AB)) < ID it /\
      ID it = seq (store (db (snd (Add (Some [x41]) q_AB)))) /\
      Forall (fun old => ID old < ID it) (rows (store (db q_AB)))) /\
  store_ok (store (db (apply_ops [OpAdd (Some [x41]); OpDelete 2] q_AB))) /\
  seq (store (db q_AB))
  <= seq (store (db (apply_ops [OpAdd (Some [x41]); OpDelete 2] q_AB))).
Proof.
  assert (Hok : store_ok (store (db q_AB))).
  { split; simpl; repeat constructor; cbn; lia. }
  assert (Hle : 1 <= seq (store (db q_AB))) by (cbn; lia).
  destruct C3_deleted_id_never_returns as [Hfinal [Hfresh Hmark]].
  split; [exact (conj Hok (conj Hle eq_refl))|].
  split; [exact (Hfinal q_AB 1 [OpAdd (Some [x41]); OpDispatch 2] (-1)
                        Hok Hle eq_refl)|].
  split; [reflexivity|].
  split; [exact (Hfresh q_AB _ (Some [x41]) Hok eq_refl)|].
  exact (Hmark q_AB [OpAdd (Some [x41]); OpDelete 2] Hok).
Defined.

(** ** One round of the dispatch loop *)

Lemma Get_one_head (q : Queue) (it : Item) (rest : list Item) :
  closed (db q) = false -> rows (store (db q)) = it :: rest ->
  fst (Get 1 q) = ([it], None).
Proof.
  intros Ho Hr; rewrite (Get_open 1 q Ho), Hr; reflexivity.
Qed.

Lemma Get_one_inv (q : Queue) (it : Item) :
  fst (Get 1 q) = ([it], None) ->
  closed (db q) = false /\ exists rest, rows (store (db q)) = it :: rest.
Proof.
  destruct (closed (db q)) eqn:Hc.
  - rewrite (Get_closed 1 q Hc); discriminate.
  - rewrite (Get_open 1 q Hc); cbn [fst]; unfold sql_limit; simpl.
    destruct (rows (store (db q))) as [|x rest]; simpl; [discriminate|].
    intros [= ->]; split; [reflexivity | now exists rest].
Qed.

Lemma iteration_one (q : Queue) (item : Item) :
  cancelled q = false -> fst (Get 1 q) = ([item], None) ->
  iteration q
  = match run_prog (clb q item) q 0 with
    | (Panicked msg, q1, _) =>
        ([EvInvoke item; EvRecovered msg], q1, Restarted)
    | (Returned, q1, delay) =>
        (EvInvoke item :: (if 0 <? delay then [EvSleep delay] else []),
         q1, Looping)
    end.
Proof.
  intros Hc HG; unfold iteration; rewrite Hc.
  pose proof (Get_state 1 q) as Hs.
  destruct (Get 1 q) as [[items err] q1]; simpl in Hs, HG; subst q1.
  injection HG as -> ->; cbn [List.length deliver].
  destruct (run_prog (clb q item) q 0) as [[[|msg] q1] delay];
    [|reflexivity].
  cbn; now rewrite app_nil_r.
Qed.

Lemma iteration_quiet (q : Queue) :
  cancelled q = true \/ fst (fst (Get 1 q)) = [] \/
  snd (fst (Get 1 q)) <> None ->
  snd (fst (iteration q)) = q.
Proof.
  unfold iteration; destruct (cancelled q); [reflexivity|].
  pose proof (Get_state 1 q) as Hs.
  destruct (Get 1 q) as [[items err] q1]; simpl in Hs; subst q1; simpl.
  intros [H|[H|H]]; [discriminate | subst items | ].
  - destruct err; reflexivity.
  - destruct err; [reflexivity | now contradiction H].
Qed.

Lemma Add_keeps_head (data : payload) (q : Queue) (it : Item)
      (rest : list Item) :
  rows (store (db q)) = it :: rest ->
  exists rest', rows (store (db (snd (Add data q)))) = it :: rest'.
Proof.
  intros Hr; unfold Add.
  destruct (closed (db q)); [now exists rest|].
  destruct (cancelled q); [now exists rest|].
  destruct data as [bs|]; [|now exists rest].
  unfold sql_insert.
  destruct (max_int64 <? next_rowid (store (db q))); [now exists rest|].
  cbn [snd with_store db store rows]; rewrite Hr.
  now eexists.
Qed.

Lemma Delete_keeps_head (id : Z) (q : Queue) (it : Item)
      (rest : list Item) :
  rows (store (db q)) = it :: rest -> id <> ID it ->
  exists rest', rows (store (db (snd (Delete id q)))) = it :: rest'.
Proof.
  intros Hr Hne; unfold Delete.
  destruct (closed (db q)); [now exists rest|].
  cbn [snd with_store db store rows sql_delete]; rewrite Hr; simpl.
  destruct (Z.eqb_spec (ID it) id); [congruence|].
  now eexists.
Qed.

Lemma run_prog_keeps_head (p : Prog) (q : Queue) (delay : Z) (it : Item)
      (rest : list Item) :
  rows (store (db q)) = it :: rest ->
  ~ In (ID it) (delete_calls p q) ->
  exists rest',
    rows (store (db (snd (fst (run_prog p q delay))))) = it :: rest'.
Proof.
  revert q delay rest;
    induction p
      as [|msg|sec k IH|data k IH|limit k IH|id k IH|f IHf k IH|k IH];
    intros q delay rest Hr Hn; cbn [run_prog delete_calls] in *.
  - now exists rest.
  - now exists rest.
  - now apply (IH q sec rest).
  - destruct (Add_keeps_head data q it rest Hr) as [rest1 H1].
    destruct (Add data q) as [e q1]; now apply (IH e q1 delay rest1).
  - pose proof (Get_state limit q) as Hs.
    destruct (Get limit q) as [r q1]; simpl in Hs; subst q1.
    now apply (IH r q delay rest).
  - destruct (Delete id q) as [e q1] eqn:HD.
    assert (Hne : id <> ID it) by (intros ->; apply Hn; now left).
    destruct (Delete_keeps_head id q it rest Hr Hne) as [rest1 H1].
    rewrite HD in H1; apply (IH e q1 delay rest1 H1).
    intros Hin; apply Hn; now right.
  - now apply (IH (Listener f q) delay rest).
  - now apply (IH None (snd (Close q)) delay rest).
Qed.

Lemma run_prog_same_handle (p : Prog) (q : Queue) (delay : Z) :
  handle_calls p q = 0%nat ->
  same_handle q (snd (fst (run_prog p q delay))).
Proof.
  revert q delay;
    induction p
      as [|msg|sec k IH|data k IH|limit k IH|id k IH|f IHf k IH|k IH];
    intros q delay Hn; cbn [run_prog handle_calls] in *;
    try discriminate.
  - now repeat split.
  - now repeat split.
  - now apply IH.
  - pose proof (stable_Add _ (same_handle_stable q) data q
                           (conj eq_refl (conj eq_refl eq_refl))) as H1.
    destruct (Add data q) as [e q1]; cbn [snd] in H1.
    exact (same_handle_trans _ _ _ H1 (IH e q1 delay Hn)).
  - pose proof (Get_state limit q) as Hs.
    destruct (Get limit q) as [r q1]; simpl in Hs; subst q1.
    now apply IH.
  - pose proof (stable_Delete _ (same_handle_stable q) id q
                              (conj eq_refl (conj eq_refl eq_refl))) as H1.
    destruct (Delete id q) as [e q1]; cbn [snd] in H1.
    exact (same_handle_trans _ _ _ H1 (IH e q1 delay Hn)).
Qed.

Lemma process_step (fuel : nat) (q q1 : Queue) (ev : list Event)
      (st : Status) :
  iteration q = (ev, q1, st) -> st <> Stopped ->
  process (S fuel) q = (ev ++ fst (process fuel q1), snd (process fuel q1)).
Proof.
  intros Hi Hst; cbn [process]; rewrite Hi.
  destruct (process fuel q1) as [ev' q2]; destruct st; try reflexivity.
  now contradiction Hst.
Qed.

Lemma invoked_app (a b : list Event) :
  invoked (a ++ b) = invoked a ++ invoked b.
Proof.
  induction a as [|e a IH]; [reflexivity|].
  destruct e; cbn [app invoked]; rewrite IH; reflexivity.
Qed.

Lemma invoked_round (q : Queue) (item : Item) :
  cancelled q = false -> fst (Get 1 q) = ([item], None) ->
  invoked (fst (fst (iteration q))) = [item] /\
  exists ev, fst (fst (iteration q)) = EvInvoke item :: ev.
Proof.
  intros Hc HG; rewrite (iteration_one q item Hc HG).
  destruct (run_prog (clb q item) q 0) as [[[|msg] q1] delay]; cbn [fst].
  - destruct (0 <? delay); split; (reflexivity || (eexists; reflexivity)).
  - split; [reflexivity | eexists; reflexivity].
Qed.

Lemma iteration_goes_on (q : Queue) :
  cancelled q = false -> snd (iteration q) <> Stopped.
Proof.
  intros Hc; unfold iteration; rewrite Hc.
  destruct (Get 1 q) as [[items [e|]] q1]; [discriminate|].
  destruct (0 <? Z.of_nat (List.length items)); [|discriminate].
  destruct (deliver items q1) as [[evs q2] [msg|]]; discriminate.
Qed.

(** C8, as stated, fails: a callback that does not delete its Item but
    closes the queue leaves the Item in the table, yet the Item is not
    delivered again, because the next round finds the context cancelled and
    the loop returns. *)
Lemma C8_counterexample_closing_callback :
  ~ (forall (q : Queue) (item : Item),
        cancelled q = false -> fst (Get 1 q) = ([item], None) ->
        ~ In (ID item) (delete_calls (clb q item) q) ->
        invoked (fst (process 2 q)) = [item; item]).
Proof.
  intros H.
  assert (Hn : ~ In (ID item_A) (delete_calls (clb q_closer item_A) q_closer))
    by (intros []).
  specialize (H q_closer item_A eq_refl eq_refl Hn).
  vm_compute in H; discriminate H.
Qed.

(** C8, amended. The dispatch loop has no write of its own. A round that
    delivers an Item leaves the queue in the state in which the callback's
    own calls left it, whether the callback returned or faulted, the loop
    does not return after it, and the rounds that follow come next in the
    trace of [process]; every other round leaves the state untouched. When
    the callback did not call [Delete] on the Item it was given, the Item is
    still in the table after the round; and when moreover the queue is still
    open and uncancelled after the round, the next [Get(1)] returns it and
    the next round of [process] invokes the callback on it again. *)
Theorem C8_loop_never_deletes :
  (forall (q : Queue) (item : Item),
      cancelled q = false -> fst (Get 1 q) = ([item], None) ->
      snd (fst (iteration q)) = snd (fst (run_prog (clb q item) q 0)) /\
      snd (iteration q) <> Stopped /\
      forall fuel,
        process (S fuel) q
        = (fst (fst (iteration q))
             ++ fst (process fuel (snd (fst (iteration q)))),
           snd (process fuel (snd (fst (iteration q)))))) /\
  (forall q : Queue,
      cancelled q = true \/ fst (fst (Get 1 q)) = [] \/
      snd (fst (Get 1 q)) <> None ->
      snd (fst (iteration q)) = q) /\
  (forall (q : Queue) (item : Item),
      cancelled q = false -> fst (Get 1 q) = ([item], None) ->
      ~ In (ID item) (delete_calls (clb q item) q) ->
      In item (rows (store (db (snd (fst (iteration q)))))) /\
      (closed (db (snd (fst (iteration q)))) = false ->
       cancelled (snd (fst (iteration q))) = false ->
       fst (Get 1 (snd (fst (iteration q)))) = ([item], None) /\
       invoked (fst (process 2 q)) = [item; item] /\
       forall fuel, exists ev,
         fst (process (S (S fuel)) q)
         = fst (fst (iteration q)) ++ EvInvoke item :: ev)).
Proof.
  assert (Hstate : forall q item,
             cancelled q = false -> fst (Get 1 q) = ([item], None) ->
             snd (fst (iteration q)) = snd (fst (run_prog (clb q item) q 0))).
  { intros q item Hc HG; rewrite (iteration_one q item Hc HG).
    destruct (run_prog (clb q item) q 0) as [[[|msg] q1] delay];
      reflexivity. }
  assert (Hstep : forall q fuel,
             cancelled q = false ->
             process (S fuel) q
             = (fst (fst (iteration q))
                  ++ fst (process fuel (snd (fst (iteration q)))),
                snd (process fuel (snd (fst (iteration q)))))).
  { intros q fuel Hc; pose proof (iteration_goes_on q Hc) as Hgo.
    destruct (iteration q) as [[ev q1] st] eqn:Hi; cbn [fst snd] in *.
    exact (process_step fuel q q1 ev st Hi Hgo). }
  split; [|split; [exact iteration_quiet|]].
  - intros q item Hc HG; split; [exact (Hstate q item Hc HG)|].
    split; [exact (iteration_goes_on q Hc) | intros fuel; now apply Hstep].
  - intros q item Hc HG Hn.
    destruct (Get_one_inv q item HG) as [Ho [rest Hr]].
    destruct (run_prog_keeps_head (clb q item) q 0 item rest Hr Hn)
      as [rest' Hr'].
    rewrite <- (Hstate q item Hc HG) in Hr'.
    set (q1 := snd (fst (iteration q))) in *.
    split; [rewrite Hr'; now left|].
    intros Ho' Hc'.
    assert (HG' : fst (Get 1 q1) = ([item], None))
      by exact (Get_one_head q1 item rest' Ho' Hr').
    destruct (invoked_round q item Hc HG) as [Hi1 _].
    destruct (invoked_round q1 item Hc' HG') as [Hi2 [ev2 He2]].
    split; [exact HG'|]; split.
    + rewrite (Hstep q 1%nat Hc); fold q1.
      rewrite (Hstep q1 0%nat Hc'); cbn [fst snd process].
      now rewrite !invoked_app, Hi1, Hi2.
    + intros fuel; rewrite (Hstep q (S fuel) Hc); fold q1.
      rewrite (Hstep q1 fuel Hc'), He2; cbn [fst].
      eexists; reflexivity.
Qed.

Lemma C8_loop_never_deletes_witness :
  (cancelled q_AB = false /\ fst (Get 1 q_AB) = ([item_A], None) /\
   ~ In (ID item_A) (delete_calls (clb q_AB item_A) q_AB) /\
   closed (db (snd (fst (iteration q_AB)))) = false /\
   cancelled (snd (fst (iteration q_AB))) = false) /\
  snd (fst (iteration q_AB)) = snd (fst (run_prog (clb q_AB item_A) q_AB 0)) /\
  snd (fst (iteration (snd (Close q_AB)))) = snd (Close q_AB) /\
  In item_A (rows (store (db (snd (fst (iteration q_AB)))))) /\
  fst (Get 1 (snd (fst (iteration q_AB)))) = ([item_A], None) /\
  invoked (fst (process 2 q_AB)) = [item_A; item_A].
Proof.
  assert (Hn : ~ In (ID item_A) (delete_calls (clb q_AB item_A) q_AB))
    by (intros []).
  destruct C8_loop_never_deletes as [Hstate [Hquiet Hagain]].
  split;
    [exact (conj eq_refl (conj eq_refl (conj Hn (conj eq_refl eq_refl))))|].
  split; [exact (proj1 (Hstate q_AB item_A eq_refl eq_refl))|].
  split; [exact (Hquiet (snd (Close q_AB)) (or_introl eq_refl))|].
  destruct (Hagain q_AB item_A eq_refl eq_refl Hn) as [Hin Hnext].
  destruct (Hnext eq_refl eq_refl) as [HG [Htwice _]].
  exact (conj Hin (conj HG Htwice)).
Defined.

(** ** The delay requested by the callback *)

Lemma last_cons (a d : Z) (l : list Z) : last (a :: l) d = last l a.
Proof.
  revert a d; induction l as [|b l IH]; intros a d; [reflexivity|].
  change (last (a :: b :: l) d) with (last (b :: l) d).
  rewrite IH; symmetry; apply IH.
Qed.

Lemma run_prog_delay (p : Prog) (q : Queue) (delay : Z) :
  snd (run_prog p q delay) = last (delay_calls p q) delay.
Proof.
  revert q delay;
    induction p
      as [|msg|sec k IH|data k IH|limit k IH|id k IH|f IHf k IH|k IH];
    intros q delay; cbn [run_prog delay_calls].
  - reflexivity.
  - reflexivity.
  - now rewrite IH, last_cons.
  - destruct (Add data q) as [e q1]; apply IH.
  - destruct (Get limit q) as [r q1]; apply IH.
  - destruct (Delete id q) as [e q1]; apply IH.
  - apply IH.
  - destruct (Close q) as [e q1]; apply IH.
Qed.


(** C5, as stated, fails: a callback that calls the delay setter with five
    seconds and then with zero has invoked it with a positive duration, yet
    the round contains no sleep. *)
Lemma C5_counterexample_delay_overwritten :
  ~ (forall (q : Queue) (item : Item) (D : Z),
        cancelled q = false -> fst (Get 1 q) = ([item], None) ->
        fst (fst (run_prog (clb q item) q 0)) = Returned ->
        In D (delay_calls (clb q item) q) -> 0 < D ->
        In (EvSleep D) (fst (fst (iteration q)))).
Proof.
  intros H.
  specialize (H q_twice item_A 5000000000 eq_refl eq_refl eq_refl
                (or_introl eq_refl) eq_refl).
  vm_compute in H; destruct H as [H|[]]; discriminate.
Qed.

(** C5, amended. In a round that delivers an Item and whose callback
    returns, let [D] be the duration passed by the last call of the delay
    setter, or zero when the setter was not called. If [D] is positive the
    round consists of the invocation followed by one sleep of [D], otherwise
    of the invocation alone; the events of the next round come after. *)
Theorem C5_delay_of_last_call (q : Queue) (item : Item) :
  cancelled q = false -> fst (Get 1 q) = ([item], None) ->
  fst (fst (run_prog (clb q item) q 0)) = Returned ->
  let D := last (delay_calls (clb q item) q) 0 in
  let q1 := snd (fst (run_prog (clb q item) q 0)) in
  (0 < D -> fst (fst (iteration q)) = [EvInvoke item; EvSleep D]) /\
  (D <= 0 -> fst (fst (iteration q)) = [EvInvoke item]) /\
  (delay_calls (clb q item) q = [] ->
   fst (fst (iteration q)) = [EvInvoke item]) /\
  forall fuel,
    fst (process (S fuel) q)
    = fst (fst (iteration q)) ++ fst (process fuel q1).
Proof.
  intros Hc HG Hret D q1.
  pose proof (iteration_one q item Hc HG) as Hi.
  pose proof (run_prog_delay (clb q item) q 0) as Hd.
  fold D in Hd; subst q1.
  destruct (run_prog (clb q item) q 0) as [[o q1] delay];
    cbn [fst snd] in *; subst o delay.
  assert (Hpos : 0 < D -> fst (fst (iteration q)) = [EvInvoke item; EvSleep D]).
  { intros HD; rewrite Hi; simpl.
    destruct (Z.ltb_spec 0 D); [reflexivity | lia]. }
  assert (Hnon : D <= 0 -> fst (fst (iteration q)) = [EvInvoke item]).
  { intros HD; rewrite Hi; simpl.
    destruct (Z.ltb_spec 0 D); [lia | reflexivity]. }
  repeat split; try assumption.
  - intros Hnil; apply Hnon; unfold D; rewrite Hnil; simpl; lia.
  - intros fuel; rewrite (process_step fuel q q1 _ Looping Hi);
      [now rewrite Hi | discriminate].
Qed.

Lemma C5_delay_of_last_call_witness :
  (cancelled q_twice = false /\ fst (Get 1 q_twice) = ([item_A], None) /\
   fst (fst (run_prog (clb q_twice item_A) q_twice 0)) = Returned) /\
  fst (fst (iteration q_twice)) = [EvInvoke item_A] /\
  (cancelled q_once = false /\ fst (Get 1 q_once) = ([item_A], None) /\
   fst (fst (run_prog (clb q_once item_A) q_once 0)) = Returned) /\
  fst (fst (iteration q_once)) = [EvInvoke item_A; EvSleep 3].
Proof.
  split; [exact (conj eq_refl (conj eq_refl eq_refl))|].
  split.
  { apply (proj1 (proj2 (C5_delay_of_last_call q_twice item_A
                                                eq_refl eq_refl eq_refl))).
    cbn; lia. }
  split; [exact (conj eq_refl (conj eq_refl eq_refl))|].
  apply (proj1 (C5_delay_of_last_call q_once item_A
                                      eq_refl eq_refl eq_refl)).
  cbn; lia.
Defined.

(** ** Faults of the callback *)

Lemma poison_round :
  iteration q_poison_B
  = ([EvInvoke item_A; EvRecovered "boom"], q_poison_B, Restarted).
Proof. reflexivity. Qed.

Lemma poison_forever (fuel : nat) :
  snd (process fuel q_poison_B) = q_poison_B /\
  forall ev, In ev (fst (process fuel q_poison_B)) ->
             ev = EvInvoke item_A \/ ev = EvRecovered "boom".
Proof.
  induction fuel as [|n [IHq IHev]]; [split; [reflexivity | intros ev []]|].
  rewrite (process_step n _ _ _ _ poison_round) by discriminate.
  cbn [fst snd]; split; [exact IHq|].
  intros ev [<-|[<-|Hin]]; [now left | now right | now apply IHev].
Qed.

(** C6, as stated, fails: with a callback that faults on every Item and
    deletes nothing, the Item whose callback faulted stays the oldest one,
    and an Item added after the fault is never delivered, however long the
    loop runs. *)
Lemma C6_counterexample_poison_item :
  ~ (forall (q q2 : Queue) (item : Item) (data : list byte),
        cancelled q = false -> fst (Get 1 q) = ([item], None) ->
        (exists msg, fst (fst (run_prog (clb q item) q 0)) = Panicked msg) ->
        Add (Some data) (snd (fst (iteration q))) = (None, q2) ->
        exists fuel,
          In (EvInvoke (mkItem (seq (store (db q2))) data))
             (fst (process fuel q2))).
Proof.
  intros H.
  destruct (H q_poison q_poison_B item_A [x42] eq_refl eq_refl
              (ex_intro _ "boom"%string eq_refl) eq_refl) as [fuel Hin].
  destruct (proj2 (poison_forever fuel) _ Hin) as [Heq|Heq];
    discriminate Heq.
Qed.

(** C6, amended. A fault of the callback ends the round with the log line
    of the recovery and a restart of the loop; the state the restarted loop
    starts from is the one the callback left, with the cancellation flag,
    the database handle and the listener as they were unless the callback
    itself called [Close] or [Listener] before it faulted, and the rounds of
    the restarted loop follow in the same trace. The running loop delivers,
    in each round, the oldest Item present in an open, uncancelled queue: an
    Item added after the fault is delivered in the first round in which it
    is the oldest Item still present. *)
Theorem C6_fault_recovered_loop_restarts :
  (forall (q : Queue) (item : Item) (msg : string),
      cancelled q = false -> fst (Get 1 q) = ([item], None) ->
      fst (fst (run_prog (clb q item) q 0)) = Panicked msg ->
      let q1 := snd (fst (run_prog (clb q item) q 0)) in
      iteration q = ([EvInvoke item; EvRecovered msg], q1, Restarted) /\
      (handle_calls (clb q item) q = 0%nat -> same_handle q q1) /\
      forall fuel,
        process (S fuel) q
        = ([EvInvoke item; EvRecovered msg] ++ fst (process fuel q1),
           snd (process fuel q1))) /\
  (forall (q : Queue) (it : Item) (rest : list Item) (fuel : nat),
      cancelled q = false -> closed (db q) = false ->
      rows (store (db q)) = it :: rest ->
      exists ev, fst (process (S fuel) q) = EvInvoke it :: ev).
Proof.
  split.
  - intros q item msg Hc HG Hp q1.
    pose proof (iteration_one q item Hc HG) as Hi.
    pose proof (run_prog_same_handle (clb q item) q 0) as Hh.
    subst q1.
    destruct (run_prog (clb q item) q 0) as [[o q1] delay];
      cbn [fst snd] in *; subst o.
    split; [exact Hi|]; split; [exact Hh|].
    intros fuel; apply (process_step fuel q q1 _ Restarted Hi); discriminate.
  - intros q it rest fuel Hc Ho Hr.
    pose proof (iteration_one q it Hc (Get_one_head q it rest Ho Hr)) as Hi.
    destruct (run_prog (clb q it) q 0) as [[[|msg] q1] delay].
    + rewrite (process_step fuel q q1 _ Looping Hi) by discriminate.
      eexists; reflexivity.
    + rewrite (process_step fuel q q1 _ Restarted Hi) by discriminate.
      eexists; reflexivity.
Qed.

Lemma C6_fault_recovered_loop_restarts_witness :
  (cancelled q_poison = false /\ fst (Get 1 q_poison) = ([item_A], None) /\
   fst (fst (run_prog (clb q_poison item_A) q_poison 0)) = Panicked "boom") /\
  iteration q_poison
  = ([EvInvoke item_A; EvRecovered "boom"], q_poison, Restarted) /\
  same_handle q_poison
              (snd (fst (run_prog (clb q_poison item_A) q_poison 0))) /\
  (cancelled q_AB = false /\ closed (db q_AB) = false /\
   rows (store (db q_AB)) = item_A :: [item_B]) /\
  exists ev, fst (process 3 q_AB) = EvInvoke item_A :: ev.
Proof.
  split; [exact (conj eq_refl (conj eq_refl eq_refl))|].
  split.
  { exact (proj1 (proj1 C6_fault_recovered_loop_restarts
                        q_poison item_A "boom"%string
                        eq_refl eq_refl eq_refl)). }
  split.
  { exact (proj1 (proj2 (proj1 C6_fault_recovered_loop_restarts
                               q_poison item_A "boom"%string
                               eq_refl eq_refl eq_refl)) eq_refl). }
  split; [exact (conj eq_refl (conj eq_refl eq_refl))|].
  exact (proj2 C6_fault_recovered_loop_restarts
               q_AB item_A [item_B] 2%nat eq_refl eq_refl eq_refl).
Defined.

(** ** Construction with [Reset] *)

Lemma default_locator_not_recognised (w : World) :
  inMemory (mkConfig (fst (getNextLocalFile w)) true) = false.
Proof. reflexivity. Qed.

Lemma purge_skipped_on_prefix (cfg : Config) (rest : list Config)
      (w : World) :
  String.prefix "file::memory_" (LocalFile cfg) = true ->
  purges (cfg :: rest) w = false.
Proof.
  intros Hp; unfold purges, configDefault.
  destruct (getNextLocalFile w) as [lf w'].
  destruct (LocalFile cfg) as [|c s] eqn:Hl; [discriminate Hp|].
  cbn [String.eqb]; unfold inMemory; rewrite Hl, Hp.
  now destruct (Reset cfg).
Qed.

(** C2. The purge is not skipped for the in-memory identifiers that the
    package generates itself. For every value of the package counter, [New]
    with [Reset] set and no locator resolves the locator to the generated
    identifier [file:memdb<n>?mode=memory&cache=shared]; the test
    [HasPrefix(cfg.LocalFile, "file::memory_")] is false on it, so
    [os.Remove] is called on that identifier taken as a path. On a machine
    where a file of that name exists the file is deleted, and on one where
    the path cannot be removed [New] fails; a locator that does start with
    [file::memory_] is left alone. *)
Theorem C2_reset_purges_generated_memory_locator :
  (forall w : World,
      LocalFile (fst (configDefault [mkConfig EmptyString true] w))
      = fst (getNextLocalFile w) /\
      purges [mkConfig EmptyString true] w = true) /\
  fst (getNextLocalFile w_init) = memdb1 /\
  files w_file memdb1 = Some (mkStore [item_A; item_B] 2) /\
  files (snd (New [mkConfig EmptyString true] w_file)) memdb1 = None /\
  fst (New [mkConfig EmptyString true] w_locked)
  = inl (ErrOS "directory not empty") /\
  purges [mkConfig "file::memory_1" true] w_file = false.
Proof.
  split; [intros w; split; reflexivity|].
  repeat split; reflexivity.
Qed.


(** * Further properties of the code *)

(** ** Failing calls and calls after [Close] *)

(** X1. A call of [Add] or [Delete] that returns an error leaves the queue
    exactly as it was: no row is written and the high-water mark does not
    move. *)
Theorem X1_failed_write_changes_nothing (q : Queue) :
  (forall data e, fst (Add data q) = Some e -> snd (Add data q) = q) /\
  (forall id e, fst (Delete id q) = Some e -> snd (Delete id q) = q).
Proof.
  split.
  - intros data e; unfold Add.
    destruct (closed (db q)); [reflexivity|].
    destruct (cancelled q); [reflexivity|].
    destruct data as [bs|]; [|reflexivity].
    destruct (sql_insert bs (store (db q))); [reflexivity | discriminate].
  - intros id e; unfold Delete.
    destruct (closed (db q)); [reflexivity | discriminate].
Qed.

Lemma X1_failed_write_changes_nothing_witness :
  fst (Add None q_AB) = Some ErrNotNull /\
  snd (Add None q_AB) = q_AB /\
  fst (Delete 1 (snd (Close q_AB))) = Some ErrDBClosed /\
  snd (Delete 1 (snd (Close q_AB))) = snd (Close q_AB).
Proof.
  split; [reflexivity|].
  split; [exact (proj1 (X1_failed_write_changes_nothing q_AB)
                       None ErrNotNull eq_refl)|].
  split; [reflexivity|].
  exact (proj2 (X1_failed_write_changes_nothing (snd (Close q_AB)))
               1 ErrDBClosed eq_refl).
Defined.

Lemma Add_is_model (data : payload) (q : Queue) :
  Add data q = Add_with db_exec_insert data q.
Proof.
  unfold Add, Add_with, db_exec_insert.
  destruct (closed (db q)); [reflexivity|].
  destruct (cancelled q); [reflexivity|].
  destruct data as [bs|]; [|reflexivity].
  destruct (sql_insert bs (store (db q))); reflexivity.
Qed.

Lemma fails_more_model : fails_more db_exec_insert.
Proof. intros d c data s H; exact H. Qed.

Lemma fails_more_readonly : fails_more readonly_exec.
Proof. intros d c data s H; discriminate H. Qed.

(** X2. Whatever else the driver may fail on (a read-only or locked
    database, an oversized blob, an input-output error), on a table that
    satisfies the storage invariant [Add] can return no error only when the
    database is open, the context is not cancelled, the payload is not nil
    and the high-water mark is below the largest 64-bit integer, and the
    queue is then the old one with one row appended under the next id. On
    the model database, where the driver reports no failure of its own,
    these conditions are also sufficient. *)
Theorem X2_Add_success_conditions
  (exec : DB -> bool -> payload -> error + Store) (data : payload)
  (q : Queue) :
  fails_more exec -> store_ok (store (db q)) ->
  (fst (Add_with exec data q) = None ->
   closed (db q) = false /\ cancelled q = false /\
   seq (store (db q)) < max_int64 /\
   exists bs,
     data = Some bs /\
     snd (Add_with exec data q)
     = with_store q (mkStore (rows (store (db q))
                                ++ [mkItem (seq (store (db q)) + 1) bs])
                             (seq (store (db q)) + 1))) /\
  (closed (db q) = false -> cancelled q = false ->
   seq (store (db q)) < max_int64 ->
   forall bs, data = Some bs ->
     fst (Add_with db_exec_insert data q) = None /\
     fst (Add data q) = None).
Proof.
  intros Hex Hok; split.
  - unfold Add_with.
    destruct (exec (db q) (cancelled q) data) as [e|s] eqn:He;
      [discriminate|].
    intros _; apply Hex in He; unfold db_exec_insert in He.
    destruct (closed (db q)); [discriminate|].
    destruct (cancelled q); [discriminate|].
    destruct data as [bs|]; [|discriminate].
    destruct (Z.lt_ge_cases (seq (store (db q))) max_int64) as [Hlt|Hge].
    + rewrite (sql_insert_ok _ _ Hok Hlt) in He; injection He as <-.
      repeat split; [exact Hlt|]; exists bs; split; reflexivity.
    + rewrite (sql_insert_full _ _ Hok Hge) in He; discriminate.
  - intros Ho Hc Hlt bs ->; rewrite <- Add_is_model.
    rewrite (Add_ok bs q Ho Hc Hok Hlt); split; reflexivity.
Qed.

Lemma X2_Add_success_conditions_witness :
  (fails_more db_exec_insert /\ store_ok (store (db q_AB)) /\
   fst (Add_with db_exec_insert (Some [x41]) q_AB) = None) /\
  (closed (db q_AB) = false /\ cancelled q_AB = false /\
   seq (store (db q_AB)) < max_int64 /\
   exists bs,
     Some [x41] = Some bs /\
     snd (Add_with db_exec_insert (Some [x41]) q_AB)
     = with_store q_AB (mkStore (rows (store (db q_AB))
                                   ++ [mkItem (seq (store (db q_AB)) + 1) bs])
                                (seq (store (db q_AB)) + 1))) /\
  fails_more readonly_exec /\
  fst (Add_with readonly_exec (Some [x41]) q_AB)
  = Some (ErrDriver "attempt to write a readonly database").
Proof.
  assert (Hok : store_ok (store (db q_AB))).
  { split; simpl; repeat constructor; cbn; lia. }
  split; [exact (conj fails_more_model (conj Hok eq_refl))|].
  split.
  { exact (proj1 (X2_Add_success_conditions db_exec_insert (Some [x41]) q_AB
                    fails_more_model Hok) eq_refl). }
  split; [exact fails_more_readonly | reflexivity].
Defined.

(** X3. After [Close], every call of [Add], [Get] and [Delete] returns the
    closed-database error, the table is what it was before [Close], and a
    second [Close] changes nothing. *)
Theorem X3_calls_after_Close (q : Queue) (data : payload) (limit id : Z) :
  fst (Add data (snd (Close q))) = Some ErrDBClosed /\
  fst (Get limit (snd (Close q))) = ([], Some ErrDBClosed) /\
  fst (Delete id (snd (Close q))) = Some ErrDBClosed /\
  store (db (snd (Add data (snd (Close q))))) = store (db q) /\
  store (db (snd (Delete id (snd (Close q))))) = store (db q) /\
  Close (snd (Close q)) = (None, snd (Close q)).
Proof.
  repeat split; reflexivity.
Qed.

(** ** The dispatch loop over many rounds *)

Lemma deliver_events (items : list Item) (q : Queue) (ev : Event) :
  In ev (fst (fst (deliver items q))) ->
  (exists it, ev = EvInvoke it) \/ (exists d, ev = EvSleep d).
Proof.
  revert q; induction items as [|item rest IH]; intros q; cbn [deliver];
    [intros []|].
  destruct (run_prog (clb q item) q 0) as [[[|msg] q1] delay].
  - specialize (IH q1).
    destruct (deliver rest q1) as [[evs q2] r]; cbn [fst] in *.
    intros [<-|Hin]; [left; now eexists|].
    apply in_app_or in Hin; destruct Hin as [Hin|Hin]; [|now apply IH].
    destruct (0 <? delay); [|destruct Hin].
    destruct Hin as [<-|[]]; right; now eexists.
  - cbn [fst]; intros [<-|[]]; left; now eexists.
Qed.

Lemma iteration_running (q : Queue) :
  cancelled q = false ->
  ~ In EvShutdown (fst (fst (iteration q))).
Proof.
  intros Hc; unfold iteration; rewrite Hc.
  destruct (Get 1 q) as [[items [e|]] q1]; cbn [fst];
    [intros [H|[]]; discriminate H|].
  destruct (0 <? Z.of_nat (List.length items)); cbn [fst];
    [|intros [H|[]]; discriminate H].
  pose proof (deliver_events items q1 EvShutdown) as Hev.
  destruct (deliver items q1) as [[evs q2] [msg|]]; cbn [fst] in *.
  - intros Hin; apply in_app_or in Hin.
    destruct Hin as [Hin|[Hin|[]]]; [|discriminate Hin].
    destruct (Hev Hin) as [[it H]|[d H]]; discriminate H.
  - intros Hin.
    destruct (Hev Hin) as [[it H]|[d H]]; discriminate H.
Qed.

(** X4. The dispatch loop returns on cancellation and on nothing else. A
    round that starts on a cancelled queue logs the shutdown and returns
    without fetching or invoking anything. A round that starts on an
    uncancelled queue logs no shutdown and is always followed by the next
    round, whatever the fetch returned and whether the callback returned or
    faulted. Hence in every trace of the loop a shutdown, if there is one,
    is the last event, and the queue is cancelled then, by a [Close] from
    outside or from the callback. *)
Theorem X4_loop_stops_only_on_cancel (q : Queue) (fuel : nat) :
  (cancelled q = true -> process (S fuel) q = ([EvShutdown], q)) /\
  (cancelled q = false ->
   ~ In EvShutdown (fst (fst (iteration q))) /\
   snd (iteration q) <> Stopped /\
   process (S fuel) q
   = (fst (fst (iteration q))
        ++ fst (process fuel (snd (fst (iteration q)))),
      snd (process fuel (snd (fst (iteration q)))))) /\
  (In EvShutdown (fst (process fuel q)) ->
   cancelled (snd (process fuel q)) = true /\
   exists pre,
     fst (process fuel q) = pre ++ [EvShutdown] /\ ~ In EvShutdown pre).
Proof.
  assert (Hstop : forall q n,
             cancelled q = true -> process (S n) q = ([EvShutdown], q)).
  { intros q0 n Hc; cbn [process]; unfold iteration; now rewrite Hc. }
  assert (Hstep : forall q n,
             cancelled q = false ->
             process (S n) q
             = (fst (fst (iteration q))
                  ++ fst (process n (snd (fst (iteration q)))),
                snd (process n (snd (fst (iteration q)))))).
  { intros q0 n Hc; pose proof (iteration_goes_on q0 Hc) as Hgo.
    destruct (iteration q0) as [[ev q1] st] eqn:Hi; cbn [fst snd] in *.
    exact (process_step n q0 q1 ev st Hi Hgo). }
  split; [now apply Hstop|]; split.
  - intros Hc; split; [now apply iteration_running|].
    split; [now apply iteration_goes_on | now apply Hstep].
  - revert q; induction fuel as [|n IH]; intros q; [intros []|].
    destruct (cancelled q) eqn:Hc.
    + rewrite (Hstop q n Hc); cbn [fst snd]; intros _.
      split; [exact Hc|]; exists []; split; [reflexivity | intros []].
    + rewrite (Hstep q n Hc); cbn [fst snd]; intros Hin.
      apply in_app_or in Hin; destruct Hin as [Hin|Hin];
        [now apply iteration_running in Hin|].
      destruct (IH _ Hin) as [Hcl [pre [Hpre Hno]]].
      split; [exact Hcl|].
      exists (fst (fst (iteration q)) ++ pre); split.
      * now rewrite Hpre, app_assoc.
      * intros H; apply in_app_or in H; destruct H as [H|H];
          [now apply iteration_running in H | now apply Hno].
Qed.

Lemma X4_loop_stops_only_on_cancel_witness :
  (cancelled q_poison = false /\
   In EvShutdown (fst (process 3 q_closer))) /\
  process 3 q_poison
  = (fst (fst (iteration q_poison))
       ++ fst (process 2 (snd (fst (iteration q_poison)))),
     snd (process 2 (snd (fst (iteration q_poison))))) /\
  cancelled (snd (process 3 q_closer)) = true /\
  exists pre,
    fst (process 3 q_closer) = pre ++ [EvShutdown] /\ ~ In EvShutdown pre.
Proof.
  assert (Hin : In EvShutdown (fst (process 3 q_closer)))
    by (right; left; reflexivity).
  split; [exact (conj eq_refl Hin)|].
  split.
  { exact (proj2 (proj2 (proj1 (proj2 (X4_loop_stops_only_on_cancel
                                         q_poison 2)) eq_refl))). }
  exact (proj2 (proj2 (X4_loop_stops_only_on_cancel q_closer 3)) Hin).
Defined.

(** X5. On an open, uncancelled queue with no rows, every round of the loop
    is an idle sleep: no callback is invoked and the queue does not
    change. *)
Theorem X5_empty_queue_idles (q : Queue) (fuel : nat) :
  closed (db q) = false -> cancelled q = false ->
  rows (store (db q)) = [] ->
  process fuel q = (repeat EvIdle fuel, q).
Proof.
  intros Ho Hc Hr.
  assert (Hi : iteration q = ([EvIdle], q, Looping)).
  { unfold iteration; rewrite Hc, (Get_open 1 q Ho), Hr; reflexivity. }
  induction fuel as [|n IH]; [reflexivity|].
  rewrite (process_step n q q _ _ Hi) by discriminate.
  now rewrite IH.
Qed.

Lemma X5_empty_queue_idles_witness :
  (closed (db q_fresh) = false /\ cancelled q_fresh = false /\
   rows (store (db q_fresh)) = []) /\
  process 3 q_fresh = ([EvIdle; EvIdle; EvIdle], q_fresh).
Proof.
  split; [exact (conj eq_refl (conj eq_refl eq_refl))|].
  exact (X5_empty_queue_idles q_fresh 3 eq_refl eq_refl eq_refl).
Defined.

Lemma New_unfold (config : list Config) (w : World) :
  New config w
  = let cfg := fst (configDefault config w) in
    let rw := if Reset cfg && negb (inMemory cfg)
              then os_Remove (LocalFile cfg) (snd (configDefault config w))
              else (RemoveNotExist, snd (configDefault config w)) in
    match fst rw with
    | RemoveFailed msg => (inl (ErrOS msg), snd rw)
    | RemoveOk | RemoveNotExist =>
        match open_store (LocalFile cfg) (snd rw) with
        | (inl e, w2) => (inl e, w2)
        | (inr s, w2) =>
            (inr (mkQueue (mkDB s false) false (fun _ => Return)), w2)
        end
    end.
Proof.
  unfold New; destruct (configDefault config w) as [cfg w0]; cbn [fst snd].
  destruct (if Reset cfg && negb (inMemory cfg)
            then os_Remove (LocalFile cfg) w0
            else (RemoveNotExist, w0)) as [r w1]; reflexivity.
Qed.

Lemma New_handle (config : list Config) (w : World) (q : Queue) :
  fst (New config w) = inr q ->
  closed (db q) = false /\ cancelled q = false /\ clb q = (fun _ => Return).
Proof.
  rewrite New_unfold; cbn zeta.
  destruct (fst (if Reset (fst (configDefault config w))
                       && negb (inMemory (fst (configDefault config w)))
                 then os_Remove (LocalFile (fst (configDefault config w)))
                                (snd (configDefault config w))
                 else (RemoveNotExist, snd (configDefault config w))));
    try discriminate;
    (destruct (open_store _ _) as [[e|s] w2]; [discriminate|]);
    cbn [fst]; intros [= <-]; repeat split.
Qed.

(** X6. The listener that [New] installs neither acknowledges nor delays.
    As long as no listener is registered, a queue returned by [New] whose
    table has a first row hands that same row to the callback in every
    round, with no sleep in between, and its state never changes. *)
Theorem X6_default_listener_spins
  (config : list Config) (w : World) (q : Queue) (it : Item)
  (rest : list Item) (fuel : nat) :
  fst (New config w) = inr q ->
  rows (store (db q)) = it :: rest ->
  process fuel q = (repeat (EvInvoke it) fuel, q).
Proof.
  intros HN Hr; destruct (New_handle config w q HN) as [Ho [Hc Hf]].
  assert (Hi : iteration q = ([EvInvoke it], q, Looping)).
  { rewrite (iteration_one q it Hc (Get_one_head q it rest Ho Hr)), Hf.
    reflexivity. }
  induction fuel as [|n IH]; [reflexivity|].
  rewrite (process_step n q q _ _ Hi) by discriminate.
  now rewrite IH.
Qed.

Lemma X6_default_listener_spins_witness :
  (fst (New [mkConfig "queue.db" false] w_disk) = inr q_AB /\
   rows (store (db q_AB)) = item_A :: [item_B]) /\
  process 2 q_AB = ([EvInvoke item_A; EvInvoke item_A], q_AB).
Proof.
  split; [exact (conj eq_refl eq_refl)|].
  exact (X6_default_listener_spins [mkConfig "queue.db" false] w_disk q_AB
           item_A [item_B] 2 eq_refl eq_refl).
Defined.

(** ** Deleting and acknowledging *)

Lemma sorted_not_in (x : Z) (l : list Z) :
  Forall (Z.lt x) l -> ~ In x l.
Proof.
  rewrite Forall_forall; intros Hall Hin; specialize (Hall x Hin); lia.
Qed.

Lemma sql_delete_exact (s : Store) (l1 l2 : list Item) (it : Item) :
  store_ok s -> rows s = l1 ++ it :: l2 ->
  sql_delete (ID it) s = mkStore (l1 ++ l2) (seq s).
Proof.
  intros [Ha _ _] Hr; unfold sql_delete; rewrite Hr in *; f_equal.
  rewrite ids_app in Ha; cbn [ids map] in Ha.
  destruct (sorted_app_inv _ _ Ha) as [_ [H2 H3]].
  apply StronglySorted_inv in H2; destruct H2 as [_ H2].
  rewrite filter_app; cbn [filter]; rewrite Z.eqb_refl; cbn [negb].
  rewrite (filter_absent (ID it) l2) by now apply sorted_not_in.
  rewrite (filter_absent (ID it) l1); [reflexivity|].
  intros Hin; specialize (H3 (ID it) (ID it) Hin (or_introl eq_refl)); lia.
Qed.

(** X7. On an open database whose table satisfies the storage invariant,
    [Delete] of the id of a row removes that one row and nothing else: the
    rows before it and after it stay, in their order, and the high-water
    mark is not lowered. *)
Theorem X7_Delete_removes_exactly_one
  (q : Queue) (l1 l2 : list Item) (it : Item) :
  closed (db q) = false -> store_ok (store (db q)) ->
  rows (store (db q)) = l1 ++ it :: l2 ->
  Delete (ID it) q
  = (None, with_store q (mkStore (l1 ++ l2) (seq (store (db q))))).
Proof.
  intros Ho Hok Hr; unfold Delete; rewrite Ho.
  now rewrite (sql_delete_exact _ l1 l2 it Hok Hr).
Qed.

Lemma X7_Delete_removes_exactly_one_witness :
  (closed (db q_AB) = false /\ store_ok (store (db q_AB)) /\
   rows (store (db q_AB)) = [item_A] ++ item_B :: []) /\
  Delete (ID item_B) q_AB
  = (None, with_store q_AB (mkStore ([item_A] ++ []) (seq (store (db q_AB))))).
Proof.
  assert (Hok : store_ok (store (db q_AB))).
  { split; simpl; repeat constructor; cbn; lia. }
  split; [exact (conj eq_refl (conj Hok eq_refl))|].
  exact (X7_Delete_removes_exactly_one q_AB [item_A] [] item_B
           eq_refl Hok eq_refl).
Defined.

(** X8. An id is consumed by [Add] even when the row is deleted again: after
    a successful [Add] and the [Delete] of the id it assigned, the table has
    the rows it had before, but the high-water mark has moved up by one, so
    that the next [Add] skips the deleted id. *)
Theorem X8_Add_then_Delete_consumes_id (q : Queue) (bs bs' : list byte) :
  closed (db q) = false -> cancelled q = false ->
  store_ok (store (db q)) -> seq (store (db q)) + 1 < max_int64 ->
  let q1 := snd (Add (Some bs) q) in
  let q2 := snd (Delete (seq (store (db q)) + 1) q1) in
  fst (Add (Some bs) q) = None /\
  fst (Delete (seq (store (db q)) + 1) q1) = None /\
  rows (store (db q2)) = rows (store (db q)) /\
  seq (store (db q2)) = seq (store (db q)) + 1 /\
  Add (Some bs') q2
  = (None,
     with_store q (mkStore (rows (store (db q))
                              ++ [mkItem (seq (store (db q)) + 2) bs'])
                           (seq (store (db q)) + 2))).
Proof.
  intros Ho Hc Hok Hlt q1 q2; subst q1 q2.
  rewrite (Add_ok bs q Ho Hc Hok) by lia; cbn [fst snd].
  set (it := mkItem (seq (store (db q)) + 1) bs).
  set (q1 := with_store q _).
  assert (Hok1 : store_ok (store (db q1))) by now apply store_ok_snoc.
  assert (HD : Delete (seq (store (db q)) + 1) q1
               = (None, with_store q (mkStore (rows (store (db q)))
                                              (seq (store (db q)) + 1)))).
  { change (seq (store (db q)) + 1) with (ID it) at 1.
    unfold Delete; change (closed (db q1)) with (closed (db q)).
    rewrite Ho.
    rewrite (sql_delete_exact _ (rows (store (db q))) [] it Hok1 eq_refl).
    now rewrite app_nil_r. }
  rewrite HD; cbn [fst snd].
  set (q2 := with_store q _).
  assert (Hok2 : store_ok (store (db q2))).
  { destruct Hok as [Ha Hb Hs]; split; cbn; [assumption | | lia].
    eapply Forall_impl; [|exact Hb]; cbn; intros; lia. }
  repeat split.
  rewrite (Add_ok bs' q2 Ho Hc Hok2) by (cbn; lia).
  unfold q2, with_store; cbn.
  replace (seq (store (db q)) + 1 + 1) with (seq (store (db q)) + 2) by lia.
  reflexivity.
Qed.

Lemma X8_Add_then_Delete_consumes_id_witness :
  (closed (db q_AB) = false /\ cancelled q_AB = false /\
   store_ok (store (db q_AB)) /\ seq (store (db q_AB)) + 1 < max_int64) /\
  rows (store (db (snd (Delete 3 (snd (Add (Some [x41]) q_AB))))))
  = [item_A; item_B] /\
  Add (Some [x42]) (snd (Delete 3 (snd (Add (Some [x41]) q_AB))))
  = (None, with_store q_AB (mkStore [item_A; item_B; mkItem 4 [x42]] 4)).
Proof.
  assert (Hok : store_ok (store (db q_AB))).
  { split; simpl; repeat constructor; cbn; lia. }
  assert (Hlt : seq (store (db q_AB)) + 1 < max_int64) by reflexivity.
  split; [exact (conj eq_refl (conj eq_refl (conj Hok Hlt)))|].
  destruct (X8_Add_then_Delete_consumes_id q_AB [x41] [x42]
              eq_refl eq_refl Hok Hlt) as [_ [_ [Hr [_ Ha]]]].
  split; [exact Hr | exact Ha].
Defined.


Lemma clb_ack_acknowledges : acknowledges clb_ack.
Proof.
  intros q item; unfold clb_ack; cbn [run_prog].
  destruct (Delete (ID item) q) as [e q1]; split; reflexivity.
Qed.

(** X9. With a listener that acknowledges every Item it is given, the loop
    drains the queue in order: on an open, uncancelled queue whose table
    satisfies the storage invariant, as many rounds as there are rows hand
    each row to the callback exactly once, oldest first, and leave the table
    empty with its high-water mark unchanged. *)
Theorem X9_acknowledging_listener_drains (q : Queue) :
  acknowledges (clb q) ->
  closed (db q) = false -> cancelled q = false ->
  store_ok (store (db q)) ->
  let n := List.length (rows (store (db q))) in
  invoked (fst (process n q)) = rows (store (db q)) /\
  rows (store (db (snd (process n q)))) = [] /\
  seq (store (db (snd (process n q)))) = seq (store (db q)).
Proof.
  intros Hack Ho Hc Hok n; subst n.
  remember (rows (store (db q))) as l eqn:Hl.
  revert q Hack Ho Hc Hok Hl; induction l as [|it rest IH];
    intros q Hack Ho Hc Hok Hl;
    [cbn [List.length process fst snd invoked]; now rewrite <- Hl|].
  symmetry in Hl.
  pose proof (iteration_one q it Hc (Get_one_head q it rest Ho Hl)) as Hi.
  destruct (Hack q it) as [Hret Hst].
  pose proof (sql_delete_exact _ [] rest it Hok Hl) as Hdel.
  cbn [app] in Hdel.
  unfold Delete in Hst; rewrite Ho, Hdel in Hst; cbn [snd] in Hst.
  destruct (run_prog (clb q it) q 0) as [[o q1] delay];
    cbn [fst snd] in Hret, Hst; subst o q1.
  set (q1 := with_store q (mkStore rest (seq (store (db q))))) in *.
  assert (Hok1 : store_ok (store (db q1))).
  { change (store (db q1)) with (mkStore rest (seq (store (db q)))).
    rewrite <- Hdel; now apply store_ok_delete. }
  destruct (IH q1 Hack Ho Hc Hok1 eq_refl) as [IH1 [IH2 IH3]].
  cbn [List.length].
  rewrite (process_step _ q q1 _ Looping Hi) by discriminate.
  cbn [fst snd]; split; [|split; assumption].
  change (EvInvoke it :: (if 0 <? delay then [EvSleep delay] else []))
    with ([EvInvoke it] ++ (if 0 <? delay then [EvSleep delay] else [])).
  rewrite <- app_assoc, !invoked_app, IH1.
  now destruct (0 <? delay).
Qed.

Lemma X9_acknowledging_listener_drains_witness :
  (acknowledges (clb q_ack) /\ closed (db q_ack) = false /\
   cancelled q_ack = false /\ store_ok (store (db q_ack))) /\
  invoked (fst (process 2 q_ack)) = [item_A; item_B] /\
  rows (store (db (snd (process 2 q_ack)))) = [] /\
  seq (store (db (snd (process 2 q_ack)))) = 2.
Proof.
  assert (Hok : store_ok (store (db q_ack))).
  { split; simpl; repeat constructor; cbn; lia. }
  split; [exact (conj clb_ack_acknowledges (conj eq_refl (conj eq_refl Hok)))|].
  exact (X9_acknowledging_listener_drains q_ack clb_ack_acknowledges
           eq_refl eq_refl Hok).
Defined.

(** ** Reading *)

(** X10. A smaller bound returns a leading part of what a larger bound
    returns: for [0 <= k] and [k <= k'] or [k'] negative, the Items of
    [Get(k)] are the first [k] Items of [Get(k')], whether the database is
    open or closed. *)
Theorem X10_Get_bounds_nest (q : Queue) (k k' : Z) :
  0 <= k -> k <= k' \/ k' < 0 ->
  fst (fst (Get k q)) = firstn (Z.to_nat k) (fst (fst (Get k' q))).
Proof.
  intros Hk Hk'.
  destruct (closed (db q)) eqn:Hc.
  - rewrite !(Get_closed _ q Hc); cbn [fst]; now rewrite firstn_nil.
  - rewrite !(Get_open _ q Hc); cbn [fst]; unfold sql_limit.
    destruct (Z.ltb_spec k 0); [lia|].
    destruct (Z.ltb_spec k' 0); [reflexivity|].
    rewrite firstn_firstn; f_equal; lia.
Qed.

Lemma X10_Get_bounds_nest_witness :
  (0 <= 1 /\ (1 <= 2 \/ 2 < 0)) /\
  fst (fst (Get 1 q_AB)) = firstn (Z.to_nat 1) (fst (fst (Get 2 q_AB))).
Proof.
  assert (H0 : 0 <= 1) by lia.
  assert (H1 : 1 <= 2 \/ 2 < 0) by (left; lia).
  split; [exact (conj H0 H1) | exact (X10_Get_bounds_nest q_AB 1 2 H0 H1)].
Defined.

(** X11. A successful [Add] puts its row behind every row present: for a
    bound between zero and the number of rows there were, [Get] returns
    after the [Add] what it returned before, and an unbounded [Get] returns
    the old rows followed by one new row that carries the payload. *)
Theorem X11_Add_appends_behind (q : Queue) (data : payload) (limit : Z) :
  fst (Add data q) = None ->
  (0 <= limit <= Z.of_nat (List.length (rows (store (db q)))) ->
   fst (Get limit (snd (Add data q))) = fst (Get limit q)) /\
  exists it,
    data = Some (Data it) /\
    fst (Get (-1) (snd (Add data q)))
    = (rows (store (db q)) ++ [it], None).
Proof.
  unfold Add.
  destruct (closed (db q)) eqn:Ho; [discriminate|].
  destruct (cancelled q); [discriminate|].
  destruct data as [bs|]; [|discriminate].
  unfold sql_insert.
  destruct (max_int64 <? next_rowid (store (db q))); [discriminate|].
  intros _; cbn [snd]; split.
  - intros Hl; rewrite !Get_open by exact Ho.
    cbn [fst with_store db store rows]; unfold sql_limit.
    destruct (Z.ltb_spec limit 0); [lia|].
    rewrite firstn_app.
    replace (Z.to_nat limit - List.length (rows (store (db q))))%nat
      with 0%nat by lia.
    now rewrite firstn_0, app_nil_r.
  - exists (mkItem (next_rowid (store (db q))) bs); split; [reflexivity|].
    now rewrite Get_open by exact Ho.
Qed.

Lemma X11_Add_appends_behind_witness :
  fst (Add (Some [x41]) q_AB) = None /\
  (0 <= 2 <= Z.of_nat (List.length (rows (store (db q_AB))))) /\
  fst (Get 2 (snd (Add (Some [x41]) q_AB))) = fst (Get 2 q_AB).
Proof.
  assert (Hl : 0 <= 2 <= Z.of_nat (List.length (rows (store (db q_AB)))))
    by (cbn; lia).
  split; [reflexivity|]; split; [exact Hl|].
  exact (proj1 (X11_Add_appends_behind q_AB (Some [x41]) 2 eq_refl) Hl).
Defined.

Lemma sorted_NoDup (l : list Z) : StronglySorted Z.lt l -> NoDup l.
Proof.
  induction 1 as [|a l Hs IH Ha]; constructor; [|exact IH].
  now apply sorted_not_in.
Qed.

(** X12. No two Items share an id. Starting from a table that satisfies the
    storage invariant, after any sequence of calls of the public interface
    and rounds of the dispatch loop, the Items that [Get] returns carry
    pairwise distinct ids. *)
Theorem X12_ids_are_distinct (q : Queue) (os : list Op) (limit : Z) :
  store_ok (store (db q)) ->
  NoDup (ids (fst (fst (Get limit (apply_ops os q))))).
Proof.
  intros Hok.
  pose proof (apply_ops_stable _ os q (mark_stable (seq (store (db q))))
                               (conj Hok (Z.le_refl _))) as [[Ha _ _] _].
  set (q' := apply_ops os q) in *.
  destruct (closed (db q')) eqn:Hc.
  - rewrite (Get_closed limit q' Hc); constructor.
  - rewrite (Get_open limit q' Hc); cbn [fst].
    destruct (sql_limit_prefix limit (rows (store (db q')))) as [rest Hr].
    rewrite Hr, ids_app in Ha.
    apply sorted_NoDup; now destruct (sorted_app_inv _ _ Ha).
Qed.

Lemma X12_ids_are_distinct_witness :
  store_ok (store (db q_AB)) /\
  NoDup (ids (fst (fst (Get (-1)
                  (apply_ops [OpDelete 1; OpAdd (Some [x41]); OpDispatch 1]
                             q_AB))))).
Proof.
  assert (Hok : store_ok (store (db q_AB))).
  { split; simpl; repeat constructor; cbn; lia. }
  split; [exact Hok|].
  exact (X12_ids_are_distinct q_AB
           [OpDelete 1; OpAdd (Some [x41]); OpDispatch 1] (-1) Hok).
Defined.

(** ** Resolving the configuration *)

Lemma wrap64_range (z : Z) : min_int64 <= wrap64 z <= max_int64.
Proof.
  unfold wrap64, min_int64, max_int64.
  pose proof (Z.mod_pos_bound (z - -9223372036854775808) (2 ^ 64)
                              ltac:(reflexivity)) as H.
  change (2 ^ 64) with 18446744073709551616 in *; lia.
Qed.

Lemma wrap64_small (z : Z) :
  min_int64 <= z <= max_int64 -> wrap64 z = z.
Proof.
  unfold wrap64, min_int64, max_int64; intros H.
  change (2 ^ 64) with 18446744073709551616.
  rewrite Z.mod_small; lia.
Qed.

Lemma wrap64_shift (z j : Z) :
  wrap64 z = wrap64 (z + j) -> j mod 2 ^ 64 = 0.
Proof.
  unfold wrap64; intros H.
  assert (H' : (z + j - min_int64) mod 2 ^ 64 = (z - min_int64) mod 2 ^ 64)
    by lia.
  replace j with ((z + j - min_int64) - (z - min_int64)) by lia.
  rewrite Zminus_mod, H', Z.sub_diag; reflexivity.
Qed.

Lemma wrap64_idem_add (z j : Z) : wrap64 (wrap64 z + j) = wrap64 (z + j).
Proof.
  unfold wrap64.
  replace ((z - min_int64) mod 2 ^ 64 + min_int64 + j - min_int64)
    with ((z - min_int64) mod 2 ^ 64 + j) by lia.
  replace (z + j - min_int64) with ((z - min_int64) + j) by lia.
  now rewrite Zplus_mod_idemp_l.
Qed.

Lemma string_length_append (s t : string) :
  String.length (s ++ t) = (String.length s + String.length t)%nat.
Proof.
  induction s as [|c s IH]; simpl; [reflexivity | now rewrite IH].
Qed.

Lemma string_append_cancel_r (s1 s2 t : string) :
  (s1 ++ t = s2 ++ t)%string -> s1 = s2.
Proof.
  intros H.
  assert (Hlen : String.length s1 = String.length s2).
  { apply (f_equal String.length) in H.
    rewrite !string_length_append in H; lia. }
  revert s2 H Hlen; induction s1 as [|c s1 IH]; intros [|c2 s2] H Hlen;
    simpl in *; try discriminate; [reflexivity|].
  injection H as -> H; f_equal; apply IH; [exact H | lia].
Qed.

Lemma to_int_printable (z : Z) :
  Z.to_int z <> Decimal.Pos Decimal.Nil /\
  Z.to_int z <> Decimal.Neg Decimal.Nil.
Proof.
  destruct z as [|p|p]; simpl; split; try discriminate;
    intros [= H]; now apply DecimalPos.Unsigned.to_uint_nonnil in H.
Qed.

Lemma decimal_inj (a b : Z) :
  NilZero.string_of_int (Z.to_int a) = NilZero.string_of_int (Z.to_int b) ->
  a = b.
Proof.
  intros H; apply (f_equal NilZero.int_of_string) in H.
  destruct (to_int_printable a) as [Ha1 Ha2].
  destruct (to_int_printable b) as [Hb1 Hb2].
  rewrite !NilZero.isi in H by assumption.
  injection H as H; apply (f_equal Z.of_int) in H.
  now rewrite !DecimalZ.of_to in H.
Qed.

Lemma locator_inj (w1 w2 : World) :
  fst (getNextLocalFile w1) = fst (getNextLocalFile w2) ->
  wrap64 (counter w1 + 1) = wrap64 (counter w2 + 1).
Proof.
  unfold getNextLocalFile; cbn [fst]; intros H.
  cbn [String.append] in H; injection H as H.
  apply string_append_cancel_r in H; now apply decimal_inj.
Qed.

(** X13. [configDefault] always resolves to a locator that is not empty. A
    configuration with a locator is returned as it is; one with an empty
    locator keeps its [Reset] flag and gets the generated locator; without
    a configuration the generated locator comes with [Reset] unset; further
    configurations are ignored. In every case the package counter is
    incremented once, also when the generated locator is not used. *)
Theorem X13_configDefault_resolves (config : list Config) (w : World) :
  LocalFile (fst (configDefault config w)) <> EmptyString /\
  (config = [] ->
   fst (configDefault config w) = mkConfig (fst (getNextLocalFile w)) false) /\
  (forall c rest, config = c :: rest ->
     fst (configDefault config w) = fst (configDefault [c] w) /\
     Reset (fst (configDefault config w)) = Reset c /\
     (LocalFile c <> EmptyString -> fst (configDefault config w) = c) /\
     (LocalFile c = EmptyString ->
      LocalFile (fst (configDefault config w)) = fst (getNextLocalFile w))) /\
  counter (snd (configDefault config w)) = wrap64 (counter w + 1).
Proof.
  assert (Hgen : fst (getNextLocalFile w) <> EmptyString) by discriminate.
  unfold configDefault.
  destruct (getNextLocalFile w) as [lf w'] eqn:Hg; cbn [fst] in Hgen.
  assert (Hcnt : counter w' = wrap64 (counter w + 1)).
  { unfold getNextLocalFile in Hg; now injection Hg as _ <-. }
  split; [|split; [|split]].
  - destruct config as [|c rest]; cbn [fst LocalFile]; [exact Hgen|].
    destruct (String.eqb_spec (LocalFile c) EmptyString) as [He|Hne];
      cbn [fst LocalFile]; assumption.
  - intros ->; reflexivity.
  - intros c rest ->.
    destruct (String.eqb_spec (LocalFile c) EmptyString) as [He|Hne];
      cbn [fst LocalFile Reset].
    + repeat split; try reflexivity; intros H; contradiction.
    + repeat split; try reflexivity; intros H;
        (reflexivity || contradiction).
  - destruct config as [|c rest]; cbn [snd]; [exact Hcnt|].
    destruct (LocalFile c =? EmptyString)%string; exact Hcnt.
Qed.

(** X14. Two successive calls of [getNextLocalFile] never return the same
    locator; more generally two calls return the same locator only when the
    counter values they print are equal, so that fewer than [2^64] calls
    yield pairwise different locators. *)
Theorem X14_generated_locators_differ (w : World) :
  fst (getNextLocalFile w)
  <> fst (getNextLocalFile (snd (getNextLocalFile w))) /\
  forall w' j,
    0 < j < 2 ^ 64 -> counter w' = wrap64 (counter w + j) ->
    fst (getNextLocalFile w) <> fst (getNextLocalFile w').
Proof.
  assert (Hgen : forall w' j,
             0 < j < 2 ^ 64 -> counter w' = wrap64 (counter w + j) ->
             fst (getNextLocalFile w) <> fst (getNextLocalFile w')).
  { intros w' j Hj Hc Heq; apply locator_inj in Heq.
    rewrite Hc, wrap64_idem_add in Heq.
    replace (counter w + j + 1) with (counter w + 1 + j) in Heq by lia.
    apply wrap64_shift in Heq.
    rewrite Z.mod_small in Heq; lia. }
  split; [|exact Hgen].
  apply (Hgen _ 1); [split; reflexivity | reflexivity].
Qed.

Lemma X14_generated_locators_differ_witness :
  (0 < 2 < 2 ^ 64 /\
   counter (mkWorld 2 (files w_init) (remove_err w_init) (open_err w_init)
                    (target w_init))
   = wrap64 (counter w_init + 2)) /\
  fst (getNextLocalFile w_init)
  <> fst (getNextLocalFile
            (mkWorld 2 (files w_init) (remove_err w_init) (open_err w_init)
                    (target w_init))).
Proof.
  assert (Hj : 0 < 2 < 2 ^ 64) by (split; reflexivity).
  split; [exact (conj Hj eq_refl)|].
  exact (proj2 (X14_generated_locators_differ w_init)
               (mkWorld 2 (files w_init) (remove_err w_init)
                        (open_err w_init) (target w_init))
               2 Hj eq_refl).
Defined.

Lemma X13_configDefault_resolves_witness :
  LocalFile (mkConfig "queue.db" true) <> EmptyString /\
  fst (configDefault [mkConfig "queue.db" true; mkConfig "other.db" false]
                     w_init)
  = mkConfig "queue.db" true.
Proof.
  assert (Hne : LocalFile (mkConfig "queue.db" true) <> EmptyString)
    by discriminate.
  split; [exact Hne|].
  destruct (X13_configDefault_resolves
              [mkConfig "queue.db" true; mkConfig "other.db" false] w_init)
    as [_ [_ [Hc _]]].
  destruct (Hc _ _ eq_refl) as [_ [_ [Hkeep _]]].
  exact (Hkeep Hne).
Defined.

(** ** Construction *)

Lemma configDefault_keeps_files (config : list Config) (w : World) :
  files (snd (configDefault config w)) = files w /\
  remove_err (snd (configDefault config w)) = remove_err w /\
  open_err (snd (configDefault config w)) = open_err w /\
  target (snd (configDefault config w)) = target w.
Proof.
  unfold configDefault, getNextLocalFile.
  destruct config as [|c rest]; [repeat split|].
  destruct (LocalFile c =? EmptyString)%string; repeat split.
Qed.

Lemma configDefault_explicit (cfg : Config) (rest : list Config) (w : World) :
  LocalFile cfg <> EmptyString ->
  fst (configDefault (cfg :: rest) w) = cfg.
Proof.
  intros Hne; unfold configDefault.
  destruct (getNextLocalFile w) as [lf w'].
  destruct (String.eqb_spec (LocalFile cfg) EmptyString);
    [contradiction | reflexivity].
Qed.

Lemma os_Remove_spec (path : string) (w : World) :
  open_err (snd (os_Remove path w)) = open_err w /\
  target (snd (os_Remove path w)) = target w /\
  (forall p, p <> path -> files (snd (os_Remove path w)) p = files w p) /\
  (forall p, files (snd (os_Remove path w)) p = files w p \/
             (p = path /\ files (snd (os_Remove path w)) p = None)) /\
  match remove_err w path with
  | Some msg =>
      os_Remove path w = (RemoveFailed msg, w)
  | None =>
      files (snd (os_Remove path w)) path = None /\
      (fst (os_Remove path w) = RemoveOk \/
       fst (os_Remove path w) = RemoveNotExist)
  end.
Proof.
  unfold os_Remove.
  destruct (remove_err w path) as [msg|].
  { split; [reflexivity|]; split; [reflexivity|].
    split; [reflexivity|]; split; [now left | reflexivity]. }
  destruct (files w path) as [s|] eqn:Hf; cbn [fst snd files open_err target].
  - split; [reflexivity|]; split; [reflexivity|]; split; [|split; [|split]].
    + intros p Hp; destruct (String.eqb_spec p path); [contradiction|].
      reflexivity.
    + intros p; destruct (String.eqb_spec p path); [now right | now left].
    + now rewrite String.eqb_refl.
    + now left.
  - split; [reflexivity|]; split; [reflexivity|]; split; [|split; [|split]].
    + reflexivity.
    + now left.
    + exact Hf.
    + now right.
Qed.

Lemma open_store_spec (dsn : string) (w : World) :
  match open_err w dsn with
  | Some msg => open_store dsn w = (inl (ErrDriver msg), w)
  | None =>
      exists s,
        fst (open_store dsn w) = inr s /\
        match target w dsn with
        | InMemory =>
            s = empty_store /\ snd (open_store dsn w) = w
        | OnDisk path =>
            s = match files w path with
                | Some s' => s'
                | None => empty_store
                end /\
            files (snd (open_store dsn w)) path = Some s /\
            forall p, p <> path ->
                      files (snd (open_store dsn w)) p = files w p
        end
  end.
Proof.
  unfold open_store.
  destruct (open_err w dsn) as [msg|]; [reflexivity|].
  destruct (target w dsn) as [path|].
  - destruct (files w path) as [s|] eqn:Hf; cbn [fst snd files].
    + exists s; repeat split; assumption.
    + exists empty_store; repeat split.
      * now rewrite String.eqb_refl.
      * intros p Hp; destruct (String.eqb_spec p path); [contradiction|].
        reflexivity.
  - exists empty_store; repeat split.
Qed.

(** X15. What [Reset] purges is the file literally named by the locator,
    while what is opened is what SQLite takes the locator for. For a
    locator that is not empty and does not start with [file::memory_], when
    the path can be removed and the database opened, [New] succeeds
    whether or not such a file existed. If SQLite takes the locator for that
    same path, the queue starts empty, with high-water mark zero, and a new
    empty database file is left at the path. If SQLite takes it for another
    path (a [file:] URI), nothing that SQLite opens is purged: the queue
    resumes the rows of the database at that other path. *)
Theorem X15_New_with_Reset_purges_literal_path
  (cfg : Config) (rest : list Config) (w : World) :
  LocalFile cfg <> EmptyString -> Reset cfg = true ->
  String.prefix "file::memory_" (LocalFile cfg) = false ->
  remove_err w (LocalFile cfg) = None ->
  open_err w (LocalFile cfg) = None ->
  exists q,
    fst (New (cfg :: rest) w) = inr q /\
    closed (db q) = false /\ cancelled q = false /\
    (target w (LocalFile cfg) = OnDisk (LocalFile cfg) ->
     store (db q) = empty_store /\
     files (snd (New (cfg :: rest) w)) (LocalFile cfg) = Some empty_store) /\
    (forall p,
        target w (LocalFile cfg) = OnDisk p -> p <> LocalFile cfg ->
        store (db q) = match files w p with
                       | Some s => s
                       | None => empty_store
                       end /\
        files (snd (New (cfg :: rest) w)) p = Some (store (db q)) /\
        files (snd (New (cfg :: rest) w)) (LocalFile cfg) = None).
Proof.
  intros Hne HR Hp Hrm Hop.
  pose proof (configDefault_explicit cfg rest w Hne) as Hcfg.
  destruct (configDefault_keeps_files (cfg :: rest) w) as [Hf [Hr [Ho Ht]]].
  rewrite New_unfold; cbn zeta; rewrite Hcfg.
  unfold inMemory; rewrite HR, Hp; cbn [andb negb].
  set (w0 := snd (configDefault (cfg :: rest) w)) in *.
  destruct (os_Remove_spec (LocalFile cfg) w0) as [Ho1 [Ht1 [Hf1 [_ H1]]]].
  rewrite Hr, Hrm in H1; destruct H1 as [Hgone Hres].
  set (w1 := snd (os_Remove (LocalFile cfg) w0)) in *.
  pose proof (open_store_spec (LocalFile cfg) w1) as H2.
  rewrite Ho1, Ho, Hop, Ht1, Ht in H2; destruct H2 as [s [Hs H2]].
  assert (HN : match fst (os_Remove (LocalFile cfg) w0) with
               | RemoveFailed msg => (inl (ErrOS msg), w1)
               | _ => match open_store (LocalFile cfg) w1 with
                      | (inl e, w2) => (inl e, w2)
                      | (inr s, w2) =>
                          (inr (mkQueue (mkDB s false) false
                                        (fun _ => Return)), w2)
                      end
               end
               = (inr (mkQueue (mkDB s false) false (fun _ => Return)),
                  snd (open_store (LocalFile cfg) w1))).
  { destruct (open_store (LocalFile cfg) w1) as [[e|s'] w2];
      cbn [fst snd] in *; [discriminate|]; injection Hs as ->.
    destruct Hres as [-> | ->]; reflexivity. }
  rewrite HN; cbn [fst snd].
  eexists; split; [reflexivity|]; cbn [db store closed cancelled].
  repeat split.
  - rewrite H in H2; destruct H2 as [-> _]; now rewrite Hgone.
  - rewrite H in H2; destruct H2 as [Hs2 [Hf2 _]].
    rewrite Hf2, Hs2; now rewrite Hgone.
  - rewrite H in H2; destruct H2 as [-> _].
    now rewrite (Hf1 p H0), Hf.
  - rewrite H in H2; now destruct H2 as [_ [Hf2 _]].
  - rewrite H in H2; destruct H2 as [_ [_ Hf2]].
    rewrite Hf2 by congruence; exact Hgone.
Qed.

Lemma X15_New_with_Reset_purges_literal_path_witness :
  (LocalFile (mkConfig "queue.db" true) <> EmptyString /\
   Reset (mkConfig "queue.db" true) = true /\
   String.prefix "file::memory_" (LocalFile (mkConfig "queue.db" true))
   = false /\
   remove_err w_disk (LocalFile (mkConfig "queue.db" true)) = None /\
   open_err w_disk (LocalFile (mkConfig "queue.db" true)) = None /\
   target w_disk "queue.db" = OnDisk "queue.db" /\
   target w_disk "file:queue.db" = OnDisk "queue.db") /\
  (exists q,
      fst (New [mkConfig "queue.db" true] w_disk) = inr q /\
      store (db q) = empty_store) /\
  (exists q,
      fst (New [mkConfig "file:queue.db" true] w_disk) = inr q /\
      store (db q) = mkStore [item_A; item_B] 2).
Proof.
  assert (Hne : LocalFile (mkConfig "queue.db" true) <> EmptyString)
    by discriminate.
  assert (Hne' : LocalFile (mkConfig "file:queue.db" true) <> EmptyString)
    by discriminate.
  split;
    [exact (conj Hne (conj eq_refl (conj eq_refl (conj eq_refl
              (conj eq_refl (conj eq_refl eq_refl))))))|].
  split.
  - destruct (X15_New_with_Reset_purges_literal_path
                (mkConfig "queue.db" true) [] w_disk
                Hne eq_refl eq_refl eq_refl eq_refl)
      as [q [HN [_ [_ [Hsame _]]]]].
    exists q; split; [exact HN | exact (proj1 (Hsame eq_refl))].
  - destruct (X15_New_with_Reset_purges_literal_path
                (mkConfig "file:queue.db" true) [] w_disk
                Hne' eq_refl eq_refl eq_refl eq_refl)
      as [q [HN [_ [_ [_ Hother]]]]].
    exists q; split; [exact HN|].
    assert (Hd : "queue.db"%string
                 <> LocalFile (mkConfig "file:queue.db" true))
      by discriminate.
    exact (proj1 (Hother "queue.db"%string eq_refl Hd)).
Defined.



(** X17. What [New] does to the file system is bounded by the locator it
    resolved. A database file that exists before [New] still exists
    afterwards with the same content, unless it is the file literally named
    by the locator and [New] purges; a file that exists after [New] either
    existed before with the same content or is the empty database that
    SQLite created at the path it takes the locator for. *)
Theorem X17_New_file_system_footprint (config : list Config) (w : World) :
  (forall p s,
      files w p = Some s ->
      p <> LocalFile (fst (configDefault config w)) \/
      purges config w = false ->
      files (snd (New config w)) p = Some s) /\
  (forall p s,
      files (snd (New config w)) p = Some s ->
      files w p = Some s \/
      (s = empty_store /\
       target w (LocalFile (fst (configDefault config w))) = OnDisk p)).
Proof.
  destruct (configDefault_keeps_files config w) as [Hf [_ [Ho Ht]]].
  rewrite New_unfold; unfold purges; cbn zeta.
  destruct (configDefault config w) as [cfg w0] eqn:Hcd; cbn [fst snd] in *.
  set (rw := if Reset cfg && negb (inMemory cfg)
             then os_Remove (LocalFile cfg) w0
             else (RemoveNotExist, w0)).
  assert (Hrw : open_err (snd rw) = open_err w0 /\
                target (snd rw) = target w /\
                (forall p, files (snd rw) p = files w p \/
                           (p = LocalFile cfg /\
                            Reset cfg && negb (inMemory cfg) = true /\
                            files (snd rw) p = None))).
  { subst rw; destruct (Reset cfg && negb (inMemory cfg)); cbn [snd].
    - destruct (os_Remove_spec (LocalFile cfg) w0) as [H1 [H2 [_ [H4 _]]]].
      repeat split; [exact H1 | now rewrite H2 |].
      intros p; destruct (H4 p) as [H|[H H']];
        [left; now rewrite H, Hf | right; now repeat split].
    - repeat split; [exact Ht | intros p; left; now rewrite Hf]. }
  destruct Hrw as [Ho1 [Ht1 Hf1]].
  assert (Hmid : match fst rw with
                 | RemoveFailed msg => (inl (ErrOS msg), snd rw)
                 | _ => match open_store (LocalFile cfg) (snd rw) with
                        | (inl e, w2) => (inl e, w2)
                        | (inr s, w2) =>
                            (inr (mkQueue (mkDB s false) false
                                          (fun _ => Return)), w2)
                        end
                 end = (fst (match fst rw with
                 | RemoveFailed msg => (inl (ErrOS msg), snd rw)
                 | _ => match open_store (LocalFile cfg) (snd rw) with
                        | (inl e, w2) => (inl e, w2)
                        | (inr s, w2) =>
                            (inr (mkQueue (mkDB s false) false
                                          (fun _ => Return)), w2)
                        end
                 end), snd rw) \/
                 snd (match fst rw with
                 | RemoveFailed msg => (inl (ErrOS msg), snd rw)
                 | _ => match open_store (LocalFile cfg) (snd rw) with
                        | (inl e, w2) => (inl e, w2)
                        | (inr s, w2) =>
                            (inr (mkQueue (mkDB s false) false
                                          (fun _ => Return)), w2)
                        end
                 end) = snd (open_store (LocalFile cfg) (snd rw))).
  { destruct (fst rw); [| |now left];
      (destruct (open_store (LocalFile cfg) (snd rw)) as [[e|s] w2];
       now right). }
  set (res := match fst rw with
              | RemoveFailed msg => (inl (ErrOS msg), snd rw)
              | _ => match open_store (LocalFile cfg) (snd rw) with
                     | (inl e, w2) => (inl e, w2)
                     | (inr s, w2) =>
                         (inr (mkQueue (mkDB s false) false
                                       (fun _ => Return)), w2)
                     end
              end) in *.
  assert (Hfin : forall p,
             files (snd res) p = files (snd rw) p \/
             (files (snd rw) p = None /\
              files (snd res) p = Some empty_store /\
              target w (LocalFile cfg) = OnDisk p)).
  { intros p; destruct Hmid as [Hm|Hm]; [rewrite Hm; now left|].
    rewrite Hm.
    pose proof (open_store_spec (LocalFile cfg) (snd rw)) as H2.
    destruct (open_err (snd rw) (LocalFile cfg)) as [msg|];
      [rewrite H2; now left|].
    destruct H2 as [s [_ H2]]; rewrite Ht1 in H2.
    destruct (target w (LocalFile cfg)) as [path|];
      [|destruct H2 as [_ ->]; now left].
    destruct H2 as [Hs [Hp Hoth]].
    destruct (String.eqb_spec p path) as [->|Hne];
      [|left; now apply Hoth].
    destruct (files (snd rw) path) as [s'|] eqn:Hfp;
      [left; now rewrite Hp, Hs|].
    right; repeat split; now rewrite Hp, Hs. }
  split.
  - intros p s Hp Hcase.
    destruct (Hfin p) as [H|[H _]].
    + rewrite H; destruct (Hf1 p) as [H'|[He [Hpg H']]];
        [now rewrite H'|].
      destruct Hcase as [Hc|Hc]; [contradiction | congruence].
    + destruct (Hf1 p) as [H'|[He [Hpg H']]]; [congruence|].
      destruct Hcase as [Hc|Hc]; [contradiction | congruence].
  - intros p s Hp.
    destruct (Hfin p) as [H|[_ [H Htp]]].
    + rewrite H in Hp; destruct (Hf1 p) as [H'|[_ [_ H']]];
        [left; now rewrite <- H' | congruence].
    + right; split; [congruence | exact Htp].
Qed.

Lemma X17_New_file_system_footprint_witness :
  (files w_disk "queue.db" = Some (mkStore [item_A; item_B] 2) /\
   ("queue.db"%string
    <> LocalFile (fst (configDefault [mkConfig "other.db" true] w_disk)))) /\
  files (snd (New [mkConfig "other.db" true] w_disk)) "queue.db"
  = Some (mkStore [item_A; item_B] 2).
Proof.
  assert (Hp : "queue.db"%string
               <> LocalFile (fst (configDefault [mkConfig "other.db" true]
                                                w_disk)))
    by discriminate.
  split; [exact (conj eq_refl Hp)|].
  exact (proj1 (X17_New_file_system_footprint [mkConfig "other.db" true]
                  w_disk)
               "queue.db"%string _ eq_refl (or_introl Hp)).
Defined.

(** X18. [New] returns an error, and no queue, in exactly two cases: it
    purges and removing the file named by the locator fails with an error
    other than its absence, in which case that error is returned, the
    database is not opened and no file is changed; or the removal did not
    fail (or was not attempted) and opening the database or creating its
    table fails, in which case the driver's error is returned, with
    [Reset] set or not. *)
Theorem X18_New_construction_errors
  (config : list Config) (w : World) (e : error) :
  (fst (New config w) = inl e <->
   (purges config w = true /\
    exists msg,
      remove_err w (LocalFile (fst (configDefault config w))) = Some msg /\
      e = ErrOS msg) \/
   ((purges config w = false \/
     remove_err w (LocalFile (fst (configDefault config w))) = None) /\
    exists msg,
      open_err w (LocalFile (fst (configDefault config w))) = Some msg /\
      e = ErrDriver msg)) /\
  (purges config w = true ->
   remove_err w (LocalFile (fst (configDefault config w))) <> None ->
   forall p, files (snd (New config w)) p = files w p).
Proof.
  destruct (configDefault_keeps_files config w) as [Hf [Hr [Ho Ht]]].
  rewrite New_unfold; unfold purges; cbn zeta.
  destruct (configDefault config w) as [cfg w0] eqn:Hcd; cbn [fst snd] in *.
  destruct (Reset cfg && negb (inMemory cfg)) eqn:Hpg; cbn [fst snd].
  - destruct (os_Remove_spec (LocalFile cfg) w0) as [Ho1 [_ [_ [_ H1]]]].
    rewrite Hr in H1.
    destruct (remove_err w (LocalFile cfg)) as [msg|] eqn:Hrm.
    + rewrite H1; cbn [fst snd]; split.
      * split.
        -- intros [= <-]; left; split; [reflexivity|]; now exists msg.
        -- intros [[_ [m [[= <-] ->]]]|[[H|H] _]];
             [reflexivity | discriminate | discriminate].
      * intros _ _ p; now rewrite Hf.
    + destruct H1 as [_ Hres]; split; [|intros _ H; now contradiction H].
      pose proof (open_store_spec (LocalFile cfg)
                    (snd (os_Remove (LocalFile cfg) w0))) as H2.
      rewrite Ho1, Ho in H2.
      destruct (open_err w (LocalFile cfg)) as [msg|] eqn:Hop.
      * rewrite H2; destruct Hres as [-> | ->]; cbn [fst]; split.
        -- intros [= <-]; right; split; [now right|]; now exists msg.
        -- intros [[_ [m [[=] _]]]|[_ [m [[= <-] ->]]]]; reflexivity.
        -- intros [= <-]; right; split; [now right|]; now exists msg.
        -- intros [[_ [m [[=] _]]]|[_ [m [[= <-] ->]]]]; reflexivity.
      * destruct H2 as [s [Hs _]].
        destruct (open_store (LocalFile cfg)
                    (snd (os_Remove (LocalFile cfg) w0))) as [[e'|s'] w2];
          cbn [fst] in Hs; [discriminate|].
        destruct Hres as [-> | ->]; cbn [fst]; split;
          try discriminate;
          intros [[_ [m [[=] _]]]|[_ [m [[=] _]]]].
  - split; [|discriminate].
    pose proof (open_store_spec (LocalFile cfg) w0) as H2.
    rewrite Ho in H2.
    destruct (open_err w (LocalFile cfg)) as [msg|] eqn:Hop.
    + rewrite H2; cbn [fst]; split.
      * intros [= <-]; right; split; [now left|]; now exists msg.
      * intros [[[=] _]|[_ [m [[= <-] ->]]]]; reflexivity.
    + destruct H2 as [s [Hs _]].
      destruct (open_store (LocalFile cfg) w0) as [[e'|s'] w2];
        cbn [fst] in Hs; [discriminate|].
      cbn [fst]; split; [discriminate|].
      intros [[[=] _]|[_ [m [[=] _]]]].
Qed.

Lemma X18_New_construction_errors_witness :
  (purges [mkConfig memdb1 true] w_locked = true /\
   remove_err w_locked
     (LocalFile (fst (configDefault [mkConfig memdb1 true] w_locked)))
   = Some "directory not empty"%string) /\
  fst (New [mkConfig memdb1 true] w_locked)
  = inl (ErrOS "directory not empty").
Proof.
  split; [exact (conj eq_refl eq_refl)|].
  apply (proj2 (proj1 (X18_New_construction_errors
                         [mkConfig memdb1 true] w_locked
                         (ErrOS "directory not empty")))).
  left; split; [reflexivity|].
  exists "directory not empty"%string; split; reflexivity.
Defined.

(** X19. The queue that [New] returns satisfies the storage invariant as
    soon as every persisted store does: rows in strictly ascending id
    order, ids from 1 up to the high-water mark. *)
Theorem X19_New_establishes_invariant
  (config : list Config) (w : World) (q : Queue) :
  (forall p s, files w p = Some s -> store_ok s) ->
  fst (New config w) = inr q ->
  store_ok (store (db q)).
Proof.
  intros Hall.
  destruct (configDefault_keeps_files config w) as [Hf _].
  rewrite New_unfold; cbn zeta.
  destruct (configDefault config w) as [cfg w0]; cbn [fst snd] in *.
  set (rw := if Reset cfg && negb (inMemory cfg)
             then os_Remove (LocalFile cfg) w0
             else (RemoveNotExist, w0)).
  assert (Hrw : forall p, files (snd rw) p = files w p \/
                          files (snd rw) p = None).
  { subst rw; destruct (Reset cfg && negb (inMemory cfg)); cbn [snd];
      [|intros p; left; now rewrite Hf].
    destruct (os_Remove_spec (LocalFile cfg) w0) as [_ [_ [_ [H4 _]]]].
    intros p; destruct (H4 p) as [H|[_ H]];
      [left; now rewrite H, Hf | now right]. }
  assert (Hopen : forall s,
             fst (open_store (LocalFile cfg) (snd rw)) = inr s ->
             store_ok s).
  { intros s Hs.
    pose proof (open_store_spec (LocalFile cfg) (snd rw)) as H2.
    destruct (open_err (snd rw) (LocalFile cfg)) as [msg|];
      [rewrite H2 in Hs; discriminate|].
    destruct H2 as [s' [Hs' H2]]; rewrite Hs in Hs'; injection Hs' as <-.
    destruct (target (snd rw) (LocalFile cfg)) as [path|];
      [|destruct H2 as [-> _]; exact store_ok_empty].
    destruct H2 as [-> _].
    destruct (files (snd rw) path) as [s'|] eqn:Hfp;
      [|exact store_ok_empty].
    destruct (Hrw path) as [H|H]; rewrite Hfp in H; [|discriminate].
    now apply (Hall path). }
  destruct (fst rw); try discriminate;
    (destruct (open_store (LocalFile cfg) (snd rw)) as [[e|s] w2] eqn:Hos;
     [discriminate|]);
    cbn [fst]; intros [= <-]; cbn [db store]; now apply Hopen.
Qed.

Lemma X19_New_establishes_invariant_witness :
  ((forall p s, files w_disk p = Some s -> store_ok s) /\
   fst (New [mkConfig "queue.db" false] w_disk) = inr q_AB) /\
  store_ok (store (db q_AB)).
Proof.
  assert (Hall : forall p s, files w_disk p = Some s -> store_ok s).
  { intros p s; cbn [w_disk files].
    destruct (p =? "queue.db")%string; intros [= <-].
    split; simpl; repeat constructor; cbn; lia. }
  split; [exact (conj Hall eq_refl)|].
  exact (X19_New_establishes_invariant [mkConfig "queue.db" false] w_disk
           q_AB Hall eq_refl).
Defined.

(** ** Registering a listener *)

(** X20. [Listener] replaces the callback and nothing else: the database
    handle and the cancellation flag are untouched, a second registration
    overrides the first, and on an open, uncancelled queue with a first row
    the next round hands that row to the newly registered callback and
    leaves the queue in the state in which that callback's calls leave
    it. *)
Theorem X20_Listener_takes_effect_next_round
  (f g : Callback) (q : Queue) (it : Item) (rest : list Item) :
  closed (db q) = false -> cancelled q = false ->
  rows (store (db q)) = it :: rest ->
  db (Listener f q) = db q /\
  cancelled (Listener f q) = cancelled q /\
  Listener g (Listener f q) = Listener g q /\
  snd (fst (iteration (Listener f q)))
  = snd (fst (run_prog (f it) (Listener f q) 0)) /\
  exists ev, fst (fst (iteration (Listener f q))) = EvInvoke it :: ev.
Proof.
  intros Ho Hc Hr.
  repeat split.
  - pose proof (iteration_one (Listener f q) it Hc
                              (Get_one_head (Listener f q) it rest Ho Hr))
      as Hi.
    rewrite Hi; cbn [Listener clb].
    destruct (run_prog (f it) (Listener f q) 0) as [[[|msg] q1] delay];
      reflexivity.
  - pose proof (iteration_one (Listener f q) it Hc
                              (Get_one_head (Listener f q) it rest Ho Hr))
      as Hi.
    rewrite Hi; cbn [Listener clb].
    destruct (run_prog (f it) _ 0) as [[[|msg] q1] delay];
      eexists; reflexivity.
Qed.

Lemma X20_Listener_takes_effect_next_round_witness :
  (closed (db q_AB) = false /\ cancelled q_AB = false /\
   rows (store (db q_AB)) = item_A :: [item_B]) /\
  snd (fst (iteration (Listener clb_ack q_AB)))
  = snd (fst (run_prog (clb_ack item_A) (Listener clb_ack q_AB) 0)) /\
  exists ev,
    fst (fst (iteration (Listener clb_ack q_AB))) = EvInvoke item_A :: ev.
Proof.
  split; [exact (conj eq_refl (conj eq_refl eq_refl))|].
  destruct (X20_Listener_takes_effect_next_round clb_ack clb_panic q_AB
              item_A [item_B] eq_refl eq_refl eq_refl)
    as [_ [_ [_ H]]].
  exact H.
Defined.

(** ** Scanning the cursor *)

Lemma scan_rows_first_error (l : list Item) (e : error) (rs : Rows)
      (acc : list Item) :
  scan_rows (map ScanOk l ++ ScanErr e :: rs) acc = ([], Some e).
Proof.
  revert acc; induction l as [|it l IH]; intros acc; simpl;
    [reflexivity | apply IH].
Qed.

(** X21. For every behaviour of the driver, [Get] is decided by the first
    row that fails to scan: when the query succeeds and every row scans,
    [Get] returns the rows of the cursor in cursor order and no error; when
    some row fails, [Get] returns nil and the error of the first such row,
    and the rows behind it are not looked at. *)
Theorem X21_Get_first_scan_error_decides
  (query : DB -> Z -> error + Rows) (limit : Z) (q : Queue)
  (l : list Item) (e : error) (rs : Rows) :
  (query (db q) limit = inr (map ScanOk l) ->
   fst (Get_with query limit q) = (l, None)) /\
  (query (db q) limit = inr (map ScanOk l ++ ScanErr e :: rs) ->
   fst (Get_with query limit q) = ([], Some e)) /\
  (query (db q) limit = inl e ->
   fst (Get_with query limit q) = ([], Some e)).
Proof.
  unfold Get_with; repeat split; intros ->; cbn [fst].
  - now rewrite scan_rows_ok.
  - apply scan_rows_first_error.
  - reflexivity.
Qed.

Lemma X21_Get_first_scan_error_decides_witness :
  bad_scan_query (db q_AB) 2
  = inr (map ScanOk [item_A] ++ ScanErr (ErrDriver "scan") :: []) /\
  fst (Get_with bad_scan_query 2 q_AB) = ([], Some (ErrDriver "scan")).
Proof.
  split; [reflexivity|].
  exact (proj1 (proj2 (X21_Get_first_scan_error_decides bad_scan_query 2 q_AB
                         [item_A] (ErrDriver "scan") []))
               eq_refl).
Defined.
